(** * Kyakuhon Text Formatter (ktf.py): from the text file to the tagged,
    blank-separated lines.

    A shallow embedding of [ktf.py] up to the renderer: the enumerations and
    [message], [load_text_file], [text_preprocessor],
    [add_attribute_to_line], [fix_line_breaks] and the part of [ktf] that
    chains them, together with the properties stated about them.  The file
    system is a parameter; [format_to_docx] and the saving of the document
    are calls into python-docx and are not part of the model.

    Python's [str] is a sequence of Unicode code points, so a string is a list
    of code points here, not a list of bytes: [.] in a pattern, [str.strip]
    and the glyph tests of the source all work per code point. *)

From Stdlib Require Import List Bool Arith NArith ZArith Lia.
From Stdlib Require String Ascii.
Import ListNotations.

(** ** Strings *)

Definition char := N.
Definition str := list char.

Definition char_eqb (a b : char) : bool := N.eqb a b.

Fixpoint str_eqb (a b : str) : bool :=
  match a, b with
  | [], [] => true
  | x :: a', y :: b' => char_eqb x y && str_eqb a' b'
  | _, _ => false
  end.

(** The glyphs the source names. *)
Definition LF : char := 0x0A%N.
Definition TAB : char := 0x09%N.
Definition CR : char := 0x0D%N.
Definition SPACE : char := 0x20%N.
Definition IDEOGRAPHIC_SPACE : char := 0x3000%N.   (* the fullwidth space *)
Definition WHITE_CIRCLE : char := 0x25CB%N.        (* ○ *)
Definition WHITE_SQUARE : char := 0x25A1%N.        (* □ *)
Definition LEFT_CORNER_BRACKET : char := 0x300C%N. (* 「 *)
Definition RIGHT_CORNER_BRACKET : char := 0x300D%N. (* 」 *)
Definition MULTIPLICATION_SIGN : char := 0xD7%N.   (* × *)
Definition LEFT_LENTICULAR : char := 0x3010%N.     (* 【 *)
Definition RIGHT_LENTICULAR : char := 0x3011%N.    (* 】 *)

(** Unicode whitespace as CPython decides it ([Py_UNICODE_ISSPACE]): the test
    behind both [str.strip()] without argument and [\s] in a [str] pattern. *)
Definition isspace (c : char) : bool :=
  ((0x09 <=? c) && (c <=? 0x0D) ||
   (0x1C <=? c) && (c <=? 0x20) ||
   (c =? 0x85) || (c =? 0xA0) || (c =? 0x1680) ||
   (0x2000 <=? c) && (c <=? 0x200A) ||
   (c =? 0x2028) || (c =? 0x2029) || (c =? 0x202F) || (c =? 0x205F) ||
   (c =? 0x3000))%N.

(** ** [str.strip()] *)

(** Skip the leading run of whitespace. *)
Fixpoint lstrip (s : str) : str :=
  match s with
  | [] => []
  | c :: s' => if isspace c then lstrip s' else s
  end.

(** Skip the trailing run of whitespace. *)
Definition rstrip (s : str) : str := rev (lstrip (rev s)).

(** [s.strip()]: the left index moves right over whitespace first, then the
    right index moves left over whitespace, and the slice between is kept. *)
Definition strip (s : str) : str := rstrip (lstrip s).

(** ** [text_preprocessor] *)

(** [buffer = [s.strip() for s in lines]; return buffer] *)
Definition text_preprocessor (lines : list str) : list str :=
  map strip lines.

(** A string with no whitespace at either end. *)
Definition no_space_at_ends (s : str) : Prop :=
  (forall c s', s = c :: s' -> isspace c = false) /\
  (forall c s', s = s' ++ [c] -> isspace c = false).

(** A trimmed string: one that [strip] leaves as it is. *)
Definition trimmed (s : str) : Prop := strip s = s.

(** ** Patterns ([re])

    The four patterns of [add_attribute_to_line] are sequences of anchors,
    single-character atoms and greedy repetitions of a single-character atom;
    the matcher below is a backtracking matcher for exactly that fragment,
    with the meaning CPython's [re] gives each construct on a [str] pattern
    compiled without flags. *)

Module Re.

Inductive atom : Type :=
| Lit (c : char)          (* a literal character *)
| OneOf (cs : list char)  (* a set [[...]] *)
| Any                     (* [.]: any character but the line feed *)
| Space.                  (* [\s]: Unicode whitespace *)

Inductive token : Type :=
| Bol            (* [^]: at the beginning of the string *)
| Eol            (* [$]: at the end, or before a line feed that ends the string *)
| One (a : atom)
| Star (a : atom)   (* [a*] *)
| Plus (a : atom).  (* [a+] *)

Definition pattern := list token.

Definition atom_match (a : atom) (c : char) : bool :=
  match a with
  | Lit d => char_eqb c d
  | OneOf cs => existsb (char_eqb c) cs
  | Any => negb (char_eqb c LF)
  | Space => isspace c
  end.

Definition at_end (s : str) : bool :=
  match s with
  | [] => true
  | [c] => char_eqb c LF
  | _ => false
  end.

(** Greedy repetition with backtracking: take one more character when the
    atom accepts it and the rest then matches, otherwise go on with the
    continuation [k] from here.  [pos] counts the characters consumed. *)
Fixpoint star (a : atom) (k : nat -> str -> bool) (pos : nat) (s : str) : bool :=
  match s with
  | c :: s' => (atom_match a c && star a k (S pos) s') || k pos s
  | [] => k pos s
  end.

Fixpoint run (p : pattern) (pos : nat) (s : str) {struct p} : bool :=
  match p with
  | [] => true
  | Bol :: p' => Nat.eqb pos 0 && run p' pos s
  | Eol :: p' => at_end s && run p' pos s
  | One a :: p' =>
      match s with
      | c :: s' => atom_match a c && run p' (S pos) s'
      | [] => false
      end
  | Star a :: p' => star a (run p') pos s
  | Plus a :: p' =>
      match s with
      | c :: s' => atom_match a c && star a (run p') (S pos) s'
      | [] => false
      end
  end.

(** [p.match(s) is not None]: the pattern is tried at position 0 only and
    need not reach the end of [s]. *)
Definition re_match (p : pattern) (s : str) : bool := run p 0 s.

End Re.

(** ** [LineAttribute] *)

Inductive LineAttribute : Type :=
| HASHIRA    (* slugline *)
| TOGAKI     (* action *)
| SERIFU     (* dialogue *)
| BUNRITAI   (* transition *)
| MIDASHI    (* heading *)
| KAIGYO.    (* blank *)

Definition LineAttribute_eqb (a b : LineAttribute) : bool :=
  match a, b with
  | HASHIRA, HASHIRA | TOGAKI, TOGAKI | SERIFU, SERIFU
  | BUNRITAI, BUNRITAI | MIDASHI, MIDASHI | KAIGYO, KAIGYO => true
  | _, _ => false
  end.

(** A tagged line, the two-element list [[text, attribute]] of the source. *)
Definition lwa : Type := str * LineAttribute.

(** ** [add_attribute_to_line] *)

(* r'^[○□].+' *)
Definition hashira : Re.pattern :=
  [Re.Bol; Re.One (Re.OneOf [WHITE_CIRCLE; WHITE_SQUARE]); Re.Plus Re.Any].

(* r'^.*「.+」$' *)
Definition serifu : Re.pattern :=
  [Re.Bol; Re.Star Re.Any; Re.One (Re.Lit LEFT_CORNER_BRACKET); Re.Plus Re.Any;
   Re.One (Re.Lit RIGHT_CORNER_BRACKET); Re.Eol].

(* r'^×\s+×\s+×$' *)
Definition bunritai : Re.pattern :=
  [Re.Bol; Re.One (Re.Lit MULTIPLICATION_SIGN); Re.Plus Re.Space;
   Re.One (Re.Lit MULTIPLICATION_SIGN); Re.Plus Re.Space;
   Re.One (Re.Lit MULTIPLICATION_SIGN); Re.Eol].

(* r'^【.+】$' *)
Definition midashi : Re.pattern :=
  [Re.Bol; Re.One (Re.Lit LEFT_LENTICULAR); Re.Plus Re.Any;
   Re.One (Re.Lit RIGHT_LENTICULAR); Re.Eol].

(** The body of the loop: the entry appended for the line [l]. *)
Definition tag_line (l : str) : lwa :=
  if Re.re_match hashira l then (l, HASHIRA)
  else if Re.re_match serifu l then (l, SERIFU)
  else if Re.re_match bunritai l then (IDEOGRAPHIC_SPACE :: l, BUNRITAI)
  else if Re.re_match midashi l then (l, MIDASHI)
  else if str_eqb l [] then (l, KAIGYO)
  else (l, TOGAKI).

Definition add_attribute_to_line (lines : list str) : list lwa :=
  fold_left (fun line_with_attributes l => line_with_attributes ++ [tag_line l])
            lines [].

(** ** [fix_line_breaks] *)

(** Python exceptions the pipeline can raise. *)
Inductive exn : Type := IndexError.

Inductive result (A : Type) : Type :=
| Return (a : A)
| Raise (e : exn).

Arguments Return {A} a.
Arguments Raise {A} e.

Section BreakNormalizer.

(** The function reads nothing of an entry but its attribute [lwa[1]], and
    appends to [buffer] either the entry it was given or a new
    [['', LineAttribute.KAIGYO]].  It is written once over any type of
    entries with these two operations, so that it can be run on the tagged
    lines themselves and on tagged lines that carry a mark of their
    origin. *)
Variable entry : Type.
Variable attribute : entry -> LineAttribute.
Variable new_blank : entry.

(** One iteration of [for lwa in line_with_attributes], on the pair of
    [buffer] and [context].  (The statement [lwa[1]] that opens the body
    only reads the attribute and has no effect.) *)
Definition fix_step (state : list entry * LineAttribute) (lwa : entry)
  : list entry * LineAttribute :=
  let (buffer, context) := state in
  let buffer :=
    if LineAttribute_eqb context (attribute lwa) then
      if LineAttribute_eqb (attribute lwa) HASHIRA
      then buffer ++ [new_blank] else buffer
    else
      if negb (LineAttribute_eqb (attribute lwa) KAIGYO)
         && negb (LineAttribute_eqb context KAIGYO)
      then buffer ++ [new_blank] else buffer in
  (buffer ++ [lwa], attribute lwa).

(** [context = line_with_attributes[0][1]] raises [IndexError] on the empty
    list. *)
Definition fix_line_breaks_on (line_with_attributes : list entry)
  : result (list entry) :=
  match line_with_attributes with
  | [] => Raise IndexError
  | first :: _ =>
      Return (fst (fold_left fix_step line_with_attributes
                             ([], attribute first)))
  end.

End BreakNormalizer.

Arguments fix_step {entry} attribute new_blank state lwa.
Arguments fix_line_breaks_on {entry} attribute new_blank line_with_attributes.

Definition blank_line : lwa := ([], KAIGYO).

Definition fix_line_breaks (line_with_attributes : list lwa)
  : result (list lwa) :=
  fix_line_breaks_on snd blank_line line_with_attributes.

(** Entries marked with their origin: an object of the input list, or one
    created by [fix_line_breaks]. *)
Inductive origin : Type := Original | Synthetic.

Definition marked : Type := origin * lwa.

Definition mark : lwa -> marked := pair Original.

Definition is_original (m : marked) : bool :=
  match fst m with Original => true | Synthetic => false end.

Definition fix_line_breaks_marked (line_with_attributes : list lwa)
  : result (list marked) :=
  fix_line_breaks_on (fun m => snd (snd m)) (Synthetic, blank_line)
                     (map mark line_with_attributes).

(** ** [ktf]: the steps between loading and rendering *)

(** [loaded] is what [load_text_file] returned for the path read from the
    console.  The result is the sequence handed to [format_to_docx], or
    [None] when [ktf] returns at its barrier [lines == None]; nothing in
    [ktf] or around its call catches an [IndexError]. *)
Definition ktf (loaded : option (list str))
  : result (option (list lwa)) :=
  match loaded with
  | None => Return None
  | Some lines =>
      let lines := text_preprocessor lines in
      let line_with_attributes := add_attribute_to_line lines in
      match fix_line_breaks line_with_attributes with
      | Return line_with_attributes => Return (Some line_with_attributes)
      | Raise e => Raise e
      end
  end.

(** ** The rules as the specification words them *)

(** The classifier's ordered rule table: pattern test and category. *)
Definition rules : list ((str -> bool) * LineAttribute) :=
  [ (Re.re_match hashira, HASHIRA);
    (Re.re_match serifu, SERIFU);
    (Re.re_match bunritai, BUNRITAI);
    (Re.re_match midashi, MIDASHI);
    (fun l => str_eqb l [], KAIGYO) ].

(** First matching rule, with Action as the fallback. *)
Definition first_match (l : str) : LineAttribute :=
  match find (fun r => fst r l) rules with
  | Some r => snd r
  | None => TOGAKI
  end.

(** A line wrapped start to end in the quote glyphs with at least one
    character inside. *)
Definition wrapped_in_quotes (s : str) : Prop :=
  exists inside, inside <> [] /\
    s = LEFT_CORNER_BRACKET :: inside ++ [RIGHT_CORNER_BRACKET].

(** The adjacency rule: a blank goes between [prev] and [cur] when both are
    sluglines, or when their categories differ and neither is blank. *)
Definition needs_blank (prev cur : LineAttribute) : bool :=
  (LineAttribute_eqb prev HASHIRA && LineAttribute_eqb cur HASHIRA)
  || (negb (LineAttribute_eqb prev cur)
      && negb (LineAttribute_eqb prev KAIGYO)
      && negb (LineAttribute_eqb cur KAIGYO)).

Definition between (prev cur : lwa) : list lwa :=
  if needs_blank (snd prev) (snd cur) then [blank_line] else [].

(** ** Auxiliary notions used in the statements *)

(** Sample inputs: the line [A「B」], and two short tagged scenes. *)
Definition speaker_line : str :=
  [0x41; LEFT_CORNER_BRACKET; 0x42; RIGHT_CORNER_BRACKET]%N.

Definition sample_scene : list lwa :=
  [([WHITE_CIRCLE; 0x41%N], HASHIRA); ([], KAIGYO); ([0x42%N], TOGAKI);
   ([0x43%N], TOGAKI);
   ([LEFT_CORNER_BRACKET; 0x44%N; RIGHT_CORNER_BRACKET], SERIFU)].

Definition sample_headings : list lwa :=
  [([WHITE_CIRCLE; 0x41%N], HASHIRA); ([WHITE_SQUARE; 0x42%N], HASHIRA);
   ([0x43%N], TOGAKI);
   ([LEFT_LENTICULAR; 0x44%N; RIGHT_LENTICULAR], MIDASHI)].

(** What a pattern accepts at position [pos] of a string whose rest is [s],
    stated without reference to the order in which the matcher tries things. *)
Fixpoint accepts (p : Re.pattern) (pos : nat) (s : str) : Prop :=
  match p with
  | [] => True
  | Re.Bol :: p' => pos = 0 /\ accepts p' pos s
  | Re.Eol :: p' => (s = [] \/ s = [LF]) /\ accepts p' pos s
  | Re.One a :: p' =>
      exists c s', s = c :: s' /\ Re.atom_match a c = true /\ accepts p' (S pos) s'
  | Re.Star a :: p' =>
      exists xs rest, s = xs ++ rest /\ forallb (Re.atom_match a) xs = true /\
                      accepts p' (pos + length xs) rest
  | Re.Plus a :: p' =>
      exists c xs rest, s = c :: xs ++ rest /\ Re.atom_match a c = true /\
                        forallb (Re.atom_match a) xs = true /\
                        accepts p' (S pos + length xs) rest
  end.

(** What the loop of [fix_line_breaks] appends to [buffer] when it starts
    with the given [context] and runs over [l]. *)
Definition appended {entry : Type} (attribute : entry -> LineAttribute)
    (new_blank : entry) (context : LineAttribute) (l : list entry)
  : list entry :=
  fst (fold_left (fix_step attribute new_blank) l ([], context)).

(** The attribute the loop holds in [context] after running over [l]. *)
Fixpoint context_after {entry : Type} (attribute : entry -> LineAttribute)
    (context : LineAttribute) (l : list entry) : LineAttribute :=
  match l with
  | [] => context
  | x :: l' => context_after attribute (attribute x) l'
  end.

(** What the adjacency rule puts in front of [x] when the entry before it
    has category [context]. *)
Definition blank_before {entry : Type} (attribute : entry -> LineAttribute)
    (new_blank : entry) (context : LineAttribute) (x : entry) : list entry :=
  if needs_blank context (attribute x) then [new_blank] else [].

(** The loop on marked entries. *)
Definition appended_marked : LineAttribute -> list marked -> list marked :=
  appended (fun m : marked => snd (snd m)) (Synthetic, blank_line).

(** A sequence of categories in which every change of category has a blank
    on one side. *)
Fixpoint separated (cs : list LineAttribute) : Prop :=
  match cs with
  | a :: (b :: _) as cs' => (a = b \/ a = KAIGYO \/ b = KAIGYO) /\ separated cs'
  | _ => True
  end.

(** ** Notions for the further properties *)

(** A relation that holds between every two neighbours of a list. *)
Fixpoint chain {A : Type} (R : A -> A -> Prop) (l : list A) : Prop :=
  match l with
  | a :: (b :: _) as l' => R a b /\ chain R l'
  | _ => True
  end.

(** A sequence of categories in which no two neighbours call for a blank. *)
Definition calm (cs : list LineAttribute) : Prop :=
  chain (fun a b => needs_blank a b = false) cs.

(** A new blank has no blank beside it. *)
Definition no_blank_beside_new (ms : list marked) : Prop :=
  chain (fun a b : marked =>
           (is_original a = false -> snd (snd b) <> KAIGYO) /\
           (is_original b = false -> snd (snd a) <> KAIGYO)) ms.

(** [s != ''] *)
Definition nonempty (s : str) : bool := negb (str_eqb s []).

(** A line made of the three separator glyphs with whitespace between. *)
Definition separator_line (l : str) : Prop :=
  exists w1 w2 tail,
    l = MULTIPLICATION_SIGN :: w1 ++ MULTIPLICATION_SIGN :: w2
          ++ MULTIPLICATION_SIGN :: tail /\
    w1 <> [] /\ w2 <> [] /\
    forallb isspace w1 = true /\ forallb isspace w2 = true /\
    (tail = [] \/ tail = [LF]).

(** A line between the heading brackets. *)
Definition bracketed_line (l : str) : Prop :=
  exists inside tail,
    l = LEFT_LENTICULAR :: inside ++ RIGHT_LENTICULAR :: tail /\
    inside <> [] /\ ~ In LF inside /\ (tail = [] \/ tail = [LF]).

(** A line that opens with a slugline marker and goes on. *)
Definition marked_line (l : str) : Prop :=
  exists c d rest,
    l = c :: d :: rest /\ (c = WHITE_CIRCLE \/ c = WHITE_SQUARE) /\ d <> LF.

(** The text the Classifier stores for a line: the line, after one fullwidth
    space when the line passes the Transition test. *)
Definition stored_text (l : str) : str :=
  if Re.re_match bunritai l then IDEOGRAPHIC_SPACE :: l else l.

(** ** Console output: [Decoration], [Status], [message] *)

Module Literal.
Import Stdlib.Strings.String Stdlib.Strings.Ascii.

(** An ASCII literal of the source as a Python string. *)
Definition of_ascii (s : string) : str :=
  List.map N_of_ascii (list_ascii_of_string s).

Definition ESC : char := 0x1B%N.   (* '\033' *)

Definition reset := ESC :: of_ascii "[0m".
Definition bold := ESC :: of_ascii "[1m".
Definition underline := ESC :: of_ascii "[4m".
Definition reverse := ESC :: of_ascii "[7m".
Definition red := ESC :: of_ascii "[31m".
Definition green := ESC :: of_ascii "[32m".
Definition blue := ESC :: of_ascii "[34m".
Definition cyan := ESC :: of_ascii "[36m".
Definition magenta := ESC :: of_ascii "[35m".
Definition yellow := ESC :: of_ascii "[33m".
Definition black := ESC :: of_ascii "[30m".
Definition white := ESC :: of_ascii "[37m".

Definition robot_label : str := [0x1F916%N; 0x20%N].
Definition failure_label : str := 0x274C%N :: of_ascii " [failure] ".
Definition success_label : str := 0x2705%N :: of_ascii " [success] ".
Definition caution_label : str := 0x26A0%N :: 0xFE0F%N :: of_ascii " [caution] ".
Definition prosessing_label : str := 0x231B%N :: of_ascii " [prosessing] ".

Definition no_file := of_ascii "There is no file.".
Definition not_txt := of_ascii "This is not a .txt file.".
Definition has_been_read := of_ascii "Text has been read.".
Definition dot_txt := of_ascii ".txt".

End Literal.

Inductive Decoration : Type :=
| RESET | BOLD | UNDERLINE | REVERSE
| RED | GREEN | BLUE | CYAN | MAGENTA | YELLOW | BLACK | WHITE.

Definition Decoration_value (d : Decoration) : str :=
  match d with
  | RESET => Literal.reset
  | BOLD => Literal.bold
  | UNDERLINE => Literal.underline
  | REVERSE => Literal.reverse
  | RED => Literal.red
  | GREEN => Literal.green
  | BLUE => Literal.blue
  | CYAN => Literal.cyan
  | MAGENTA => Literal.magenta
  | YELLOW => Literal.yellow
  | BLACK => Literal.black
  | WHITE => Literal.white
  end.

Inductive Status : Type :=
| MESSAGE | FAILURE | SUCCESS | CAUTION | PROSESSING.

Definition Status_value (s : Status) : str :=
  match s with
  | MESSAGE => Literal.robot_label
  | FAILURE =>
      Decoration_value RED ++ Literal.failure_label ++ Decoration_value RESET
  | SUCCESS =>
      Decoration_value GREEN ++ Literal.success_label ++ Decoration_value RESET
  | CAUTION =>
      Decoration_value YELLOW ++ Literal.caution_label ++ Decoration_value RESET
  | PROSESSING =>
      Decoration_value CYAN ++ Literal.prosessing_label
        ++ Decoration_value RESET
  end.

(** The value of each member of [LineAttribute]. *)
Definition LineAttribute_value (a : LineAttribute) : str :=
  match a with
  | HASHIRA => Decoration_value YELLOW
  | TOGAKI => Decoration_value BLUE
  | SERIFU => Decoration_value GREEN
  | BUNRITAI => Decoration_value RED
  | MIDASHI => Decoration_value CYAN
  | KAIGYO => []
  end.

(** [message(text, status)]: the line it prints. *)
Definition message (text : str) (status : Status) : str :=
  let escs :=
    match status with
    | FAILURE => Decoration_value RED
    | SUCCESS => Decoration_value GREEN
    | CAUTION => Decoration_value YELLOW
    | MESSAGE => Decoration_value CYAN
    | PROSESSING => Decoration_value CYAN
    end in
  escs ++ Status_value status ++ escs ++ text ++ Decoration_value RESET.

(** ** [load_text_file] *)

(** The line boundaries of [str.splitlines]. *)
Definition is_linebreak (c : char) : bool :=
  ((0x0A <=? c) && (c <=? 0x0D) ||
   (0x1C <=? c) && (c <=? 0x1E) ||
   (c =? 0x85) || (c =? 0x2028) || (c =? 0x2029))%N.

(** [str.splitlines()], with [line] the part of the current line read so
    far: a line ends at a line boundary, [\r\n] counting as one, and the
    boundary is dropped; what follows the last boundary is a line only when
    it is not empty. *)
Fixpoint splitlines_from (line : str) (s : str) : list str :=
  match s with
  | [] => match line with [] => [] | _ => [line] end
  | c :: s' =>
      if is_linebreak c then
        line :: (if char_eqb c CR
                 then match s' with
                      | d :: s'' => if char_eqb d LF then splitlines_from [] s''
                                    else splitlines_from [] s'
                      | [] => splitlines_from [] s'
                      end
                 else splitlines_from [] s')
      else splitlines_from (line ++ [c]) s'
  end.

Definition splitlines (s : str) : list str := splitlines_from [] s.

(** [os.path] is [posixpath] or [ntpath]. *)
Inductive os_name : Type := posix | nt.

Definition DOT : char := 0x2E%N.

Definition sep (os : os_name) : char :=
  match os with posix => 0x2F%N | nt => 0x5C%N end.

Definition altsep (os : os_name) : option char :=
  match os with posix => None | nt => Some 0x2F%N end.

(** The highest index of a character that satisfies [P], [-1] when there is
    none. *)
Fixpoint rindex (P : char -> bool) (p : str) : Z :=
  match p with
  | [] => (-1)%Z
  | x :: p' =>
      let r := rindex P p' in
      if (0 <=? r)%Z then (r + 1)%Z else if P x then 0%Z else (-1)%Z
  end.

(** [p.rfind(c)] for a one-character [c]. *)
Definition rfind (c : char) (p : str) : Z := rindex (fun x => char_eqb x c) p.

(** [p[i:j]] for indices [0 <= i]. *)
Definition slice (p : str) (i j : Z) : str :=
  firstn (Z.to_nat (j - i)) (skipn (Z.to_nat i) p).

(** [os.path.splitext(p)] ([genericpath._splitext]): the extension starts at
    the last dot, provided that dot comes after the last separator and
    after some character of the file name that is not a dot. *)
Definition splitext (os : os_name) (p : str) : str * str :=
  let sepIndex := rfind (sep os) p in
  let sepIndex :=
    match altsep os with
    | Some a => Z.max sepIndex (rfind a p)
    | None => sepIndex
    end in
  let dotIndex := rfind DOT p in
  if (sepIndex <? dotIndex)%Z
     && existsb (fun x => negb (char_eqb x DOT))
                (slice p (sepIndex + 1) dotIndex)
  then (firstn (Z.to_nat dotIndex) p, skipn (Z.to_nat dotIndex) p)
  else (p, []).

(** What [open(file_path, mode='r', encoding='utf_8')] and [f.read()] can
    raise. *)
Inductive read_error : Type := OSError | UnicodeDecodeError.

(** The files as [load_text_file] sees them: [os.path.isfile], and the text
    [f.read()] returns for a path, or the exception raised on the way. *)
Record file_system : Type := {
  isfile : str -> bool;
  read_text : str -> str + read_error
}.

(** The lines printed and the value returned, or the exception raised. *)
Definition load_text_file (os : os_name) (fs : file_system) (file_path : str)
  : list str * (option (list str) + read_error) :=
  if negb (isfile fs file_path) then
    ([message Literal.no_file FAILURE], inl None)
  else if negb (str_eqb (snd (splitext os file_path)) Literal.dot_txt) then
    ([message Literal.not_txt FAILURE], inl None)
  else
    match read_text fs file_path with
    | inl text =>
        ([message Literal.has_been_read SUCCESS], inl (Some (splitlines text)))
    | inr e => ([], inr e)
    end.

(** A string that holds no line boundary. *)
Definition no_linebreak (l : str) : Prop :=
  forallb (fun c => negb (is_linebreak c)) l = true.

(** A separator of the path syntax. *)
Definition is_sep (os : os_name) (c : char) : bool :=
  char_eqb c (sep os)
  || match altsep os with Some a => char_eqb c a | None => false end.

(** A path whose last component is a name with a character other than a
    dot, followed by [.txt]. *)
Definition txt_path (os : os_name) (p : str) : Prop :=
  exists dir name,
    p = dir ++ name ++ Literal.dot_txt /\
    (dir = [] \/ exists dir' c, dir = dir' ++ [c] /\ is_sep os c = true) /\
    forallb (fun x => negb (is_sep os x)) name = true /\
    existsb (fun x => negb (char_eqb x DOT)) name = true.

(** Sample files. *)
Definition script_txt : str := 0x61%N :: Literal.dot_txt.

Definition empty_files : file_system :=
  {| isfile := fun _ => true; read_text := fun _ => inl [] |}.

Definition sample_text : str :=
  speaker_line ++ [LF; SPACE; LEFT_LENTICULAR; 0x43%N; RIGHT_LENTICULAR; CR; LF].

(** ** Facts about [strip] *)

Section StripFacts.

Lemma str_eqb_eq (a b : str) : str_eqb a b = true <-> a = b.
Proof.
  revert b; induction a as [|x a IH]; intros [|y b]; simpl; try easy.
  unfold char_eqb; rewrite andb_true_iff, N.eqb_eq, IH.
  split; [intros [-> ->]; reflexivity | intros H; injection H; auto].
Qed.

Lemma lstrip_split (s : str) :
  exists pre, s = pre ++ lstrip s /\ forallb isspace pre = true.
Proof.
  induction s as [|c s [pre [E W]]]; simpl.
  - exists []; auto.
  - destruct (isspace c) eqn:Hc.
    + exists (c :: pre); simpl; rewrite Hc, W; split; [f_equal; exact E | reflexivity].
    + exists []; auto.
Qed.

Lemma lstrip_head (s : str) c s' : lstrip s = c :: s' -> isspace c = false.
Proof.
  induction s as [|d s IH]; simpl; [discriminate|].
  destruct (isspace d) eqn:Hd; auto.
  intros E; injection E as -> _; exact Hd.
Qed.

Lemma lstrip_fixed (s : str) :
  (forall c s', s = c :: s' -> isspace c = false) -> lstrip s = s.
Proof.
  destruct s as [|c s]; simpl; auto.
  intros H; rewrite (H c s eq_refl); reflexivity.
Qed.

Lemma lstrip_all_space (s : str) : forallb isspace s = true -> lstrip s = [].
Proof.
  induction s as [|c s IH]; simpl; auto.
  intros H; apply andb_true_iff in H as [-> H]; auto.
Qed.

Lemma rstrip_split (s : str) :
  exists suf, s = rstrip s ++ suf /\ forallb isspace suf = true.
Proof.
  unfold rstrip; destruct (lstrip_split (rev s)) as [pre [E W]].
  exists (rev pre); split.
  - rewrite <- rev_app_distr, <- E, rev_involutive; reflexivity.
  - rewrite forallb_forall in *; intros x Hx; apply W, in_rev, Hx.
Qed.

Lemma rstrip_last (s : str) c s' : rstrip s = s' ++ [c] -> isspace c = false.
Proof.
  unfold rstrip; intros E.
  apply (f_equal (@rev char)) in E.
  rewrite rev_involutive, rev_app_distr in E; simpl in E.
  exact (lstrip_head _ _ _ E).
Qed.

Lemma rstrip_fixed (s : str) :
  (forall c s', s = s' ++ [c] -> isspace c = false) -> rstrip s = s.
Proof.
  intros H; unfold rstrip; rewrite lstrip_fixed; [apply rev_involutive|].
  intros c s' E; apply (H c (rev s')).
  rewrite <- (rev_involutive s), E; reflexivity.
Qed.

(** Dropping a suffix keeps the first character of what remains. *)
Lemma rstrip_head (s : str) c s' :
  rstrip s = c :: s' -> exists s0, s = c :: s0.
Proof.
  destruct (rstrip_split s) as [suf [E _]]; intros R.
  exists (s' ++ suf); rewrite E at 1; rewrite R; reflexivity.
Qed.

Lemma strip_no_space_at_ends (s : str) : no_space_at_ends (strip s).
Proof.
  unfold strip; split; intros c s' E.
  - destruct (rstrip_head _ _ _ E) as [s0 E0]; exact (lstrip_head _ _ _ E0).
  - exact (rstrip_last _ _ _ E).
Qed.

Lemma strip_fixed (s : str) : no_space_at_ends s -> strip s = s.
Proof.
  intros [Hl Hr]; unfold strip; rewrite (lstrip_fixed _ Hl); exact (rstrip_fixed _ Hr).
Qed.

Lemma trimmed_iff (s : str) : trimmed s <-> no_space_at_ends s.
Proof.
  split; [intros <-; apply strip_no_space_at_ends | apply strip_fixed].
Qed.

Lemma strip_split (s : str) :
  exists pre suf,
    s = pre ++ strip s ++ suf /\
    forallb isspace pre = true /\ forallb isspace suf = true.
Proof.
  destruct (lstrip_split s) as [pre [E W]].
  destruct (rstrip_split (lstrip s)) as [suf [E' W']].
  exists pre, suf; unfold strip; rewrite <- E', <- E; auto.
Qed.

Lemma strip_all_space (s : str) : forallb isspace s = true -> strip s = [].
Proof.
  intros H; unfold strip; rewrite (lstrip_all_space _ H); reflexivity.
Qed.

Lemma strip_idempotent (s : str) : strip (strip s) = strip s.
Proof. apply strip_fixed, strip_no_space_at_ends. Qed.

End StripFacts.

(** ** Facts about the matcher *)

Module ReFacts.
Import Re.

Lemma at_end_iff (s : str) : at_end s = true <-> s = [] \/ s = [LF].
Proof.
  destruct s as [|c [|d s]]; simpl.
  - intuition.
  - unfold char_eqb; rewrite N.eqb_eq; split.
    + intros ->; auto.
    + intros [H|H]; [discriminate | injection H; auto].
  - split; [discriminate | intros [H|H]; discriminate].
Qed.

Lemma star_iff a (k : nat -> str -> bool) (s : str) : forall pos,
  star a k pos s = true <->
  exists xs rest, s = xs ++ rest /\ forallb (atom_match a) xs = true /\
                  k (pos + length xs) rest = true.
Proof.
  induction s as [|c s IH]; intros pos; simpl.
  - split.
    + intros H; exists [], []; simpl; rewrite Nat.add_0_r; auto.
    + intros (xs & rest & E & _ & K).
      symmetry in E; apply app_eq_nil in E as [-> ->].
      simpl in K; rewrite Nat.add_0_r in K; exact K.
  - rewrite orb_true_iff, andb_true_iff, IH; split.
    + intros [[Hc (xs & rest & -> & W & K)] | K].
      * exists (c :: xs), rest; simpl; rewrite Hc, W.
        rewrite Nat.add_succ_r; auto.
      * exists [], (c :: s); simpl; rewrite Nat.add_0_r; auto.
    + intros (xs & rest & E & W & K); destruct xs as [|x xs]; simpl in *.
      * right; subst rest; rewrite Nat.add_0_r in K; exact K.
      * injection E as -> ->; apply andb_true_iff in W as [Hc W].
        left; split; [exact Hc|]; exists xs, rest.
        rewrite Nat.add_succ_r in K; auto.
Qed.

(** The matcher decides [accepts]. *)
Theorem run_iff (p : pattern) : forall pos s,
  run p pos s = true <-> accepts p pos s.
Proof.
  induction p as [|t p IH]; intros pos s; simpl; [tauto|].
  destruct t as [| |a|a|a].
  - rewrite andb_true_iff, Nat.eqb_eq, IH; tauto.
  - rewrite andb_true_iff, at_end_iff, IH; tauto.
  - destruct s as [|c s].
    + split; [discriminate | intros (c & s' & E & _); discriminate].
    + rewrite andb_true_iff, IH; split.
      * intros [Hc A]; exists c, s; auto.
      * intros (c' & s' & E & Hc & A); injection E as -> ->; auto.
  - rewrite star_iff; split; intros (xs & rest & E & W & K);
      exists xs, rest; (split; [exact E|]; split; [exact W|]); apply IH, K.
  - destruct s as [|c s].
    + split; [discriminate | intros (c & xs & rest & E & _); discriminate].
    + rewrite andb_true_iff, star_iff; split.
      * intros [Hc (xs & rest & -> & W & K)].
        exists c, xs, rest; repeat split; auto; apply IH, K.
      * intros (c' & xs & rest & E & Hc & W & K); injection E as -> ->.
        split; [exact Hc|]; exists xs, rest; repeat split; auto; apply IH, K.
Qed.

(** A run of [.] is a run of characters other than the line feed. *)
Lemma all_any_iff (xs : str) :
  forallb (atom_match Any) xs = true <-> ~ In LF xs.
Proof.
  induction xs as [|x xs IH]; simpl; [tauto|].
  rewrite andb_true_iff, IH, negb_true_iff; unfold char_eqb.
  rewrite N.eqb_neq; split.
  - intros [Hx Hn] [E|I]; [apply Hx; auto | tauto].
  - intros H; split; [intros E; apply H; auto | tauto].
Qed.

Lemma lit_iff (d c : char) : atom_match (Lit d) c = true <-> c = d.
Proof. simpl; unfold char_eqb; apply N.eqb_eq. Qed.

(** [^.*「.+」$]: some run without line feed, the opening glyph, a non-empty
    run without line feed, the closing glyph, and then the end of the string
    or one last line feed. *)
Lemma serifu_iff (s : str) :
  re_match serifu s = true <->
  exists before inside tail,
    s = before ++ LEFT_CORNER_BRACKET :: inside ++ RIGHT_CORNER_BRACKET :: tail /\
    inside <> [] /\ ~ In LF before /\ ~ In LF inside /\
    (tail = [] \/ tail = [LF]).
Proof.
  unfold re_match; rewrite run_iff; unfold serifu; cbn [accepts]; split.
  - intros (_ & xs & r1 & -> & W1 & c1 & r2 & -> & L1 & c & ys & r3 & ->
            & Hc & W2 & c2 & r4 & -> & L2 & T & _).
    apply lit_iff in L1, L2; subst c1 c2.
    exists xs, (c :: ys), r4; repeat split.
    + discriminate.
    + apply all_any_iff, W1.
    + apply (all_any_iff (c :: ys)); cbn [forallb]; rewrite Hc, W2; reflexivity.
    + exact T.
  - intros (before & inside & tail & -> & NE & W1 & W2 & T).
    destruct inside as [|c ys]; [congruence|].
    apply all_any_iff in W1, W2; cbn [forallb] in W2.
    apply andb_true_iff in W2 as [Hc W2].
    split; [reflexivity|].
    exists before, (LEFT_CORNER_BRACKET :: (c :: ys) ++ RIGHT_CORNER_BRACKET :: tail).
    repeat split; [exact W1|].
    exists LEFT_CORNER_BRACKET, ((c :: ys) ++ RIGHT_CORNER_BRACKET :: tail).
    repeat split.
    exists c, ys, (RIGHT_CORNER_BRACKET :: tail); repeat split; auto.
    exists RIGHT_CORNER_BRACKET, tail; repeat split; auto.
Qed.

End ReFacts.

(** ** Facts about [add_attribute_to_line] *)

Lemma LineAttribute_eqb_eq (a b : LineAttribute) :
  LineAttribute_eqb a b = true <-> a = b.
Proof. destruct a, b; simpl; split; congruence. Qed.

Lemma LineAttribute_eqb_neq (a b : LineAttribute) :
  LineAttribute_eqb a b = false <-> a <> b.
Proof. destruct a, b; simpl; split; congruence. Qed.

(** The loop with [append] builds the list of the entries of the lines. *)
Lemma add_attribute_to_line_map (lines : list str) :
  add_attribute_to_line lines = map tag_line lines.
Proof.
  unfold add_attribute_to_line.
  enough (G : forall acc,
             fold_left (fun b l => b ++ [tag_line l]) lines acc
             = acc ++ map tag_line lines) by apply (G []).
  induction lines as [|l lines IH]; intros acc; simpl.
  - symmetry; apply app_nil_r.
  - rewrite IH, <- app_assoc; reflexivity.
Qed.

Lemma tag_line_first_match (l : str) : snd (tag_line l) = first_match l.
Proof.
  unfold tag_line, first_match, rules; simpl.
  destruct (Re.re_match hashira l); [reflexivity|].
  destruct (Re.re_match serifu l); [reflexivity|].
  destruct (Re.re_match bunritai l); [reflexivity|].
  destruct (Re.re_match midashi l); [reflexivity|].
  destruct (str_eqb l []); reflexivity.
Qed.

Lemma tag_line_text (l : str) :
  fst (tag_line l)
  = match snd (tag_line l) with
    | BUNRITAI => IDEOGRAPHIC_SPACE :: l
    | _ => l
    end.
Proof.
  unfold tag_line.
  destruct (Re.re_match hashira l); [reflexivity|].
  destruct (Re.re_match serifu l); [reflexivity|].
  destruct (Re.re_match bunritai l); [reflexivity|].
  destruct (Re.re_match midashi l); [reflexivity|].
  destruct (str_eqb l []); reflexivity.
Qed.

(** ** Facts about [fix_line_breaks] *)

(** The two nested tests of the loop body decide the adjacency rule. *)
Lemma needs_blank_code (context cur : LineAttribute) :
  (if LineAttribute_eqb context cur
   then LineAttribute_eqb cur HASHIRA
   else negb (LineAttribute_eqb cur KAIGYO)
        && negb (LineAttribute_eqb context KAIGYO))
  = needs_blank context cur.
Proof. destruct context, cur; reflexivity. Qed.

Lemma needs_blank_same (c : LineAttribute) :
  needs_blank c c = LineAttribute_eqb c HASHIRA.
Proof. destruct c; reflexivity. Qed.

Lemma needs_blank_false (prev cur : LineAttribute) :
  needs_blank prev cur = false -> prev = cur \/ prev = KAIGYO \/ cur = KAIGYO.
Proof. destruct prev, cur; intros H; cbv in H; auto; discriminate. Qed.

Section BreakNormalizerFacts.

Variable entry : Type.
Variable attribute : entry -> LineAttribute.
Variable new_blank : entry.

Lemma fix_step_eq (buffer : list entry) context (x : entry) :
  fix_step attribute new_blank (buffer, context) x
  = (buffer ++ blank_before attribute new_blank context x ++ [x], attribute x).
Proof.
  unfold fix_step, blank_before; rewrite <- needs_blank_code.
  destruct (LineAttribute_eqb context (attribute x)).
  - destruct (LineAttribute_eqb (attribute x) HASHIRA); simpl;
      rewrite <- ?app_assoc; reflexivity.
  - destruct (negb (LineAttribute_eqb (attribute x) KAIGYO)
              && negb (LineAttribute_eqb context KAIGYO)); simpl;
      rewrite <- ?app_assoc; reflexivity.
Qed.

(** The buffer only grows: what was in it stays in front. *)
Lemma fold_fix_step (l : list entry) : forall buffer context,
  fold_left (fix_step attribute new_blank) l (buffer, context)
  = (buffer ++ appended attribute new_blank context l,
     context_after attribute context l).
Proof.
  unfold appended.
  induction l as [|x l IH]; intros buffer context.
  - simpl; rewrite app_nil_r; reflexivity.
  - cbn [fold_left]; rewrite !fix_step_eq, IH.
    rewrite (IH ([] ++ _)); cbn [fst app].
    rewrite <- !app_assoc; reflexivity.
Qed.

Lemma appended_cons context (x : entry) (l : list entry) :
  appended attribute new_blank context (x :: l)
  = blank_before attribute new_blank context x
    ++ x :: appended attribute new_blank (attribute x) l.
Proof.
  unfold appended at 1; cbn [fold_left].
  rewrite fix_step_eq, fold_fix_step; cbn [fst app].
  rewrite <- app_assoc; reflexivity.
Qed.

Lemma appended_app context (l1 l2 : list entry) :
  appended attribute new_blank context (l1 ++ l2)
  = appended attribute new_blank context l1
    ++ appended attribute new_blank (context_after attribute context l1) l2.
Proof.
  revert context; induction l1 as [|x l1 IH]; intros context.
  - reflexivity.
  - cbn [app]; rewrite !appended_cons, IH, <- app_assoc; cbn [app].
    reflexivity.
Qed.

Lemma fix_line_breaks_on_cons (x : entry) (l : list entry) :
  fix_line_breaks_on attribute new_blank (x :: l)
  = Return (appended attribute new_blank (attribute x) (x :: l)).
Proof. reflexivity. Qed.

Lemma appended_length context (l : list entry) :
  length l <= length (appended attribute new_blank context l).
Proof.
  revert context; induction l as [|x l IH]; intros context.
  - apply Nat.le_refl.
  - rewrite appended_cons, length_app; simpl.
    specialize (IH (attribute x)); lia.
Qed.

(** Every change of category in the output has a blank on one side,
    provided the new entries are blank. *)
Lemma appended_separated (l : list entry) :
  attribute new_blank = KAIGYO ->
  forall context,
    separated (context :: map attribute (appended attribute new_blank context l)).
Proof.
  intros B; induction l as [|x l IH]; intros context.
  - exact I.
  - rewrite appended_cons; unfold blank_before.
    destruct (needs_blank context (attribute x)) eqn:N.
    + cbn [app map separated]; rewrite B.
      split; [auto|]; split; [auto|]; apply IH.
    + cbn [app map separated]; split; [|apply IH].
      apply needs_blank_false, N.
Qed.

End BreakNormalizerFacts.

Lemma separated_tail (c : LineAttribute) (cs : list LineAttribute) :
  separated (c :: cs) -> separated cs.
Proof. destruct cs; simpl; tauto. Qed.

Lemma separated_adjacent (cs : list LineAttribute) :
  separated cs ->
  forall before a b after, cs = before ++ a :: b :: after ->
    a = b \/ a = KAIGYO \/ b = KAIGYO.
Proof.
  intros S before; revert cs S; induction before as [|c before IH];
    intros cs S a b after ->.
  - exact (proj1 S).
  - apply (IH _ (separated_tail _ _ S) a b after eq_refl).
Qed.

(** *** Marked and unmarked runs *)

Lemma erase_marks (l : list lwa) : map snd (map mark l) = l.
Proof. rewrite map_map; apply map_id. Qed.

(** Erasing the marks of a marked run gives the run on the tagged lines. *)
Lemma appended_marked_erase (l : list lwa) : forall context,
  map snd (appended_marked context (map mark l))
  = appended snd blank_line context l.
Proof.
  unfold appended_marked; induction l as [|x l IH]; intros context.
  - reflexivity.
  - cbn [map]; rewrite !appended_cons; unfold blank_before; cbn [mark snd].
    destruct (needs_blank context (snd x)); cbn [app map snd];
      rewrite IH; reflexivity.
Qed.

(** The original entries of a marked run are the input, in order. *)
Lemma appended_marked_originals (l : list lwa) : forall context,
  filter is_original (appended_marked context (map mark l)) = map mark l.
Proof.
  unfold appended_marked; induction l as [|x l IH]; intros context.
  - reflexivity.
  - cbn [map]; rewrite appended_cons; unfold blank_before; cbn [mark snd].
    destruct (needs_blank context (snd x)); cbn [app filter is_original fst];
      rewrite IH; reflexivity.
Qed.

(** Every other entry of a marked run is a new blank. *)
Lemma appended_marked_synthetic (l : list lwa) : forall context m,
  In m (appended_marked context (map mark l)) ->
  is_original m = false -> m = (Synthetic, blank_line).
Proof.
  unfold appended_marked; induction l as [|x l IH]; intros context m.
  - intros [].
  - cbn [map]; rewrite appended_cons; unfold blank_before; cbn [mark snd].
    destruct (needs_blank context (snd x)); cbn [app In].
    + intros [<-|[<-|I]] O; [reflexivity | discriminate | eauto].
    + intros [<-|I] O; [discriminate | eauto].
Qed.

Lemma fix_line_breaks_marked_erase (l : list lwa) :
  match fix_line_breaks_marked l with
  | Return out => fix_line_breaks l = Return (map snd out)
  | Raise e => fix_line_breaks l = Raise e
  end.
Proof.
  destruct l as [|x l]; [reflexivity|].
  unfold fix_line_breaks_marked, fix_line_breaks; cbn [map].
  rewrite !fix_line_breaks_on_cons; f_equal.
  symmetry; apply (appended_marked_erase (x :: l)).
Qed.

(** * The Preprocessor *)

(** C8.  The Preprocessor returns as many lines as it was given, in the same
    order, and each returned line is the given one without its leading and
    trailing run of whitespace: the given line is the returned one between
    two runs of whitespace, and the returned one has no whitespace at either
    end.  Space, tab, line feed, carriage return and the fullwidth space
    U+3000 are whitespace.  A line of whitespace only becomes the empty
    string and stays in the sequence; the empty sequence gives the empty
    sequence. *)
Theorem text_preprocessor_trims (lines : list str) :
  Forall2 (fun raw line =>
             (exists pre suf,
                 raw = pre ++ line ++ suf /\
                 forallb isspace pre = true /\ forallb isspace suf = true) /\
             no_space_at_ends line /\
             (forallb isspace raw = true -> line = []))
          lines (text_preprocessor lines)
  /\ length (text_preprocessor lines) = length lines
  /\ forallb isspace [SPACE; TAB; LF; CR; IDEOGRAPHIC_SPACE] = true
  /\ text_preprocessor [] = [].
Proof.
  unfold text_preprocessor; repeat split.
  - induction lines as [|raw lines IH]; constructor; [|exact IH].
    split; [apply strip_split|].
    split; [apply strip_no_space_at_ends | apply strip_all_space].
  - apply length_map.
Qed.

(** C9.  The Preprocessor is idempotent: running it on its own output
    changes nothing. *)
Theorem text_preprocessor_idempotent (lines : list str) :
  text_preprocessor (text_preprocessor lines) = text_preprocessor lines.
Proof.
  unfold text_preprocessor; rewrite map_map.
  apply map_ext; intros s; apply strip_idempotent.
Qed.

(** * The Classifier *)

(** C4.  Classification is total: every line, whatever its characters, gets
    one of the six categories, and the category is that of the first rule
    that matches in the order Slugline, Dialogue, Transition, Heading,
    Blank, with Action when none matches.  The sequence of categories
    returned for a sequence of lines is the sequence of these categories,
    line by line. *)
Theorem classifier_first_match (lines : list str) :
  map snd (add_attribute_to_line lines) = map first_match lines
  /\ length (add_attribute_to_line lines) = length lines.
Proof.
  rewrite add_attribute_to_line_map, map_map, length_map; split; [|reflexivity].
  apply map_ext, tag_line_first_match.
Qed.

(** C5.  The text stored with a line is the line itself, except for a
    Transition, where it is the line with one fullwidth space U+3000 put in
    front. *)
Theorem classifier_stored_text (lines : list str) :
  Forall2 (fun l entry =>
             fst entry = match snd entry with
                         | BUNRITAI => IDEOGRAPHIC_SPACE :: l
                         | HASHIRA | SERIFU | MIDASHI | KAIGYO | TOGAKI => l
                         end)
          lines (add_attribute_to_line lines).
Proof.
  rewrite add_attribute_to_line_map.
  induction lines as [|l lines IH]; constructor; [|exact IH].
  apply tag_line_text.
Qed.

(** C2, as amended.  For a trimmed line on which the Slugline rule does not
    match, the category is Dialogue exactly when the line ends with a quoted
    part: any characters (possibly none), then the opening glyph, at least
    one character, and the closing glyph as the last character of the line,
    with no line feed anywhere before the closing glyph.  Characters before
    the opening glyph are allowed. *)
Theorem dialogue_iff_quoted_ending (s : str) :
  trimmed s ->
  Re.re_match hashira s = false ->
  (snd (tag_line s) = SERIFU <->
   exists before inside,
     s = before ++ LEFT_CORNER_BRACKET :: inside ++ [RIGHT_CORNER_BRACKET] /\
     inside <> [] /\ ~ In LF before /\ ~ In LF inside).
Proof.
  intros T H.
  assert (D : snd (tag_line s) = SERIFU <-> Re.re_match serifu s = true).
  { unfold tag_line; rewrite H.
    destruct (Re.re_match serifu s); [tauto|].
    destruct (Re.re_match bunritai s); [split; discriminate|].
    destruct (Re.re_match midashi s); [split; discriminate|].
    destruct (str_eqb s []); split; discriminate. }
  rewrite D, ReFacts.serifu_iff; split.
  - intros (before & inside & tail & E & NE & W1 & W2 & [->| ->]).
    + exists before, inside; tauto.
    + exfalso; apply trimmed_iff in T; destruct T as [_ Tr].
      specialize (Tr LF (before ++ LEFT_CORNER_BRACKET :: inside
                                ++ [RIGHT_CORNER_BRACKET])).
      rewrite <- app_assoc in Tr; cbn [app] in Tr.
      rewrite <- app_assoc in Tr; cbn [app] in Tr.
      specialize (Tr E); discriminate.
  - intros (before & inside & E & NE & W1 & W2).
    exists before, inside, []; tauto.
Qed.

Lemma dialogue_iff_quoted_ending_witness :
  trimmed speaker_line /\
  Re.re_match hashira speaker_line = false /\
  (snd (tag_line speaker_line) = SERIFU <->
   exists before inside,
     speaker_line
     = before ++ LEFT_CORNER_BRACKET :: inside ++ [RIGHT_CORNER_BRACKET] /\
     inside <> [] /\ ~ In LF before /\ ~ In LF inside).
Proof.
  split; [reflexivity|]; split; [reflexivity|].
  apply (dialogue_iff_quoted_ending speaker_line); reflexivity.
Defined.

(** C2, as stated, fails: the trimmed line [A「B」] is no Slugline and is
    classified Dialogue, yet it has a character before the opening glyph and
    so is not wrapped start to end in the quote glyphs. *)
Lemma dialogue_after_speaker_counterexample :
  trimmed speaker_line /\
  Re.re_match hashira speaker_line = false /\
  snd (tag_line speaker_line) = SERIFU /\
  ~ wrapped_in_quotes speaker_line.
Proof.
  repeat split.
  intros (inside & _ & E); discriminate E.
Qed.

(** A line feed between the quote glyphs keeps a line from being Dialogue:
    [.] does not match it.  Lines read by [str.splitlines] hold none. *)
Example dialogue_on_one_line_only :
  snd (tag_line [LEFT_CORNER_BRACKET; 0x41; LF; 0x42; RIGHT_CORNER_BRACKET]%N)
  = TOGAKI.
Proof. reflexivity. Qed.

(** * The Break Normalizer *)

(** What comes first in the output: the first entry itself, with one new
    blank before it exactly when its category is Slugline. *)
Lemma fix_line_breaks_marked_head (x : lwa) (l : list lwa) :
  fix_line_breaks_marked (x :: l)
  = Return ((if LineAttribute_eqb (snd x) HASHIRA
             then [(Synthetic, blank_line)] else [])
            ++ mark x :: appended_marked (snd x) (map mark l)).
Proof.
  unfold fix_line_breaks_marked; cbn [map].
  rewrite fix_line_breaks_on_cons, appended_cons; unfold blank_before.
  cbn [mark snd]; rewrite needs_blank_same; reflexivity.
Qed.

(** C1, on the code.  Given the single Slugline [○A], the Break Normalizer
    returns a new blank followed by that entry: a blank is put before the
    first entry when it is a Slugline, although [context] was set to the
    first entry's own category to keep the head of the output free of one.
    The same happens in the whole pipeline on the one-line input [○A]. *)
Theorem leading_blank_before_first_slugline :
  fix_line_breaks_marked [([WHITE_CIRCLE; 0x41%N], HASHIRA)]
  = Return [(Synthetic, blank_line);
            (Original, ([WHITE_CIRCLE; 0x41%N], HASHIRA))]
  /\ fix_line_breaks [([WHITE_CIRCLE; 0x41%N], HASHIRA)]
     = Return [blank_line; ([WHITE_CIRCLE; 0x41%N], HASHIRA)]
  /\ ktf (Some [[WHITE_CIRCLE; 0x41%N]])
     = Return (Some [blank_line; ([WHITE_CIRCLE; 0x41%N], HASHIRA)]).
Proof. repeat split. Qed.

(** C3.  Take any two neighbours [prev], [cur] of the input, with [before]
    the entries in front of them and [after] those behind.  In the output,
    between the entry [prev] and the entry [cur] stand exactly the new
    entries of [between prev cur]: one (empty string, Blank) when both are
    Sluglines or when the categories differ and neither is Blank, nothing
    otherwise.  The original entries in front of [prev] in the output are
    those of [before], and the ones behind [cur] are those of [after]. *)
Theorem blank_between_neighbours (before : list lwa) (prev cur : lwa)
    (after : list lwa) :
  exists out_before out_after,
    fix_line_breaks_marked (before ++ prev :: cur :: after)
    = Return (out_before ++ mark prev
                :: map (pair Synthetic) (between prev cur)
                ++ mark cur :: out_after)
    /\ filter is_original out_before = map mark before
    /\ filter is_original out_after = map mark after
    /\ fix_line_breaks (before ++ prev :: cur :: after)
       = Return (map snd out_before ++ prev
                   :: between prev cur ++ cur :: map snd out_after).
Proof.
  set (l := before ++ prev :: cur :: after).
  assert (NE : exists x l', l = x :: l')
    by (subst l; destruct before as [|y before]; simpl; eauto).
  destruct NE as (x & l' & El).
  set (c1 := context_after (fun m : marked => snd (snd m)) (snd x)
                           (map mark before)).
  set (lead := if needs_blank c1 (snd prev)
               then [(Synthetic, blank_line)] else []).
  exists (appended_marked (snd x) (map mark before) ++ lead),
         (appended_marked (snd cur) (map mark after)).
  assert (R : fix_line_breaks_marked l
              = Return ((appended_marked (snd x) (map mark before) ++ lead)
                          ++ mark prev
                          :: map (pair Synthetic) (between prev cur)
                          ++ mark cur
                          :: appended_marked (snd cur) (map mark after))).
  { unfold fix_line_breaks_marked; fold mark.
    rewrite El at 1; cbn [map]; rewrite fix_line_breaks_on_cons.
    change (mark x :: map mark l') with (map mark (x :: l')).
    rewrite <- El; subst l; rewrite map_app; cbn [map snd].
    fold appended_marked; unfold appended_marked at 1.
    rewrite appended_app, !appended_cons; fold appended_marked.
    unfold blank_before; cbn [mark snd]; fold c1; fold lead.
    unfold between; destruct (needs_blank (snd prev) (snd cur));
      cbn [map app]; rewrite <- !app_assoc; reflexivity. }
  split; [exact R|].
  split; [|split].
  - rewrite filter_app, appended_marked_originals.
    unfold lead; destruct (needs_blank c1 (snd prev)); cbn [filter];
      [cbn [is_original fst]|]; apply app_nil_r.
  - apply appended_marked_originals.
  - pose proof (fix_line_breaks_marked_erase l) as E; rewrite R in E.
    rewrite E, !map_app; cbn [map mark snd]; rewrite !map_app.
    cbn [map snd]; rewrite map_map; cbn [snd]; rewrite map_id; reflexivity.
Qed.

(** C6.  On a non-empty input the Break Normalizer returns a sequence which,
    once the entries it created are taken out, is the input itself, entry for
    entry and in order; every entry it created is an (empty string, Blank);
    and the output is at least as long as the input. *)
Theorem normalization_keeps_content (l : list lwa) :
  l <> [] ->
  exists out,
    fix_line_breaks_marked l = Return out
    /\ fix_line_breaks l = Return (map snd out)
    /\ map snd (filter is_original out) = l
    /\ (forall m, In m out -> is_original m = false ->
                  m = (Synthetic, blank_line))
    /\ length l <= length (map snd out).
Proof.
  destruct l as [|x l]; [congruence | intros _].
  pose proof (fix_line_breaks_marked_erase (x :: l)) as E.
  assert (R : fix_line_breaks_marked (x :: l)
              = Return (appended_marked (snd x) (map mark (x :: l))))
    by reflexivity.
  rewrite R in E.
  exists (appended_marked (snd x) (map mark (x :: l))).
  split; [exact R|]; split; [exact E|]; split; [|split].
  - rewrite appended_marked_originals; apply erase_marks.
  - apply appended_marked_synthetic.
  - rewrite length_map; unfold appended_marked.
    rewrite <- (length_map mark (x :: l)); apply appended_length.
Qed.

Lemma normalization_keeps_content_witness :
  sample_scene <> [] /\
  exists out,
    fix_line_breaks_marked sample_scene = Return out
    /\ fix_line_breaks sample_scene = Return (map snd out)
    /\ map snd (filter is_original out) = sample_scene
    /\ (forall m, In m out -> is_original m = false ->
                  m = (Synthetic, blank_line))
    /\ length sample_scene <= length (map snd out).
Proof.
  split; [discriminate|].
  apply (normalization_keeps_content sample_scene); discriminate.
Defined.

(** C7.  On a non-empty input the Break Normalizer returns a sequence in
    which no two neighbours have different categories that are both
    non-Blank. *)
Theorem normalization_separates_categories (l : list lwa) :
  l <> [] ->
  exists out,
    fix_line_breaks l = Return out
    /\ forall front a b back,
         out = front ++ a :: b :: back ->
         ~ (snd a <> snd b /\ snd a <> KAIGYO /\ snd b <> KAIGYO).
Proof.
  destruct l as [|x l]; [congruence | intros _].
  unfold fix_line_breaks; rewrite fix_line_breaks_on_cons.
  eexists; split; [reflexivity|].
  intros front a b back E (N1 & N2 & N3).
  pose proof (appended_separated _ snd blank_line (x :: l) eq_refl (snd x)) as S.
  apply separated_tail in S.
  assert (S' : separated (map snd (front ++ a :: b :: back)))
    by (rewrite <- E; exact S).
  rewrite map_app in S'; cbn [map] in S'.
  destruct (separated_adjacent _ S' _ _ _ _ eq_refl) as [H|[H|H]]; contradiction.
Qed.

Lemma normalization_separates_categories_witness :
  sample_headings <> [] /\
  exists out,
    fix_line_breaks sample_headings = Return out
    /\ forall front a b back,
         out = front ++ a :: b :: back ->
         ~ (snd a <> snd b /\ snd a <> KAIGYO /\ snd b <> KAIGYO).
Proof.
  split; [discriminate|].
  apply (normalization_separates_categories sample_headings); discriminate.
Defined.

(** C10.  The Break Normalizer is not total: on the empty sequence it raises
    [IndexError], at the read of the first entry's category.  The pipeline
    does not keep the empty sequence from it: for a file without lines the
    Preprocessor and the Classifier return the empty sequence and the Break
    Normalizer then fails, so the pipeline fails instead of handing an empty
    sequence to the renderer; that is the one input on which it fails. *)
Theorem fix_line_breaks_fails_on_empty :
  fix_line_breaks [] = Raise IndexError
  /\ add_attribute_to_line (text_preprocessor []) = []
  /\ ktf (Some []) = Raise IndexError
  /\ ktf (Some []) <> Return (Some [])
  /\ forall lines e, ktf (Some lines) = Raise e <-> lines = [].
Proof.
  repeat split; try discriminate.
  - destruct lines as [|s lines]; [reflexivity|].
    unfold ktf, text_preprocessor.
    rewrite add_attribute_to_line_map; cbn [map].
    unfold fix_line_breaks; rewrite fix_line_breaks_on_cons; discriminate.
  - intros ->; destruct e; reflexivity.
Qed.

(** * Further properties of the Classifier *)

Module PatternFacts.
Import Re ReFacts.

Lemma all_space_iff (xs : str) :
  forallb (atom_match Space) xs = forallb isspace xs.
Proof. reflexivity. Qed.

(** [^[○□].+] *)
Lemma hashira_iff (l : str) : re_match hashira l = true <-> marked_line l.
Proof.
  unfold re_match, marked_line; rewrite run_iff; unfold hashira.
  cbn [accepts]; split.
  - intros (_ & c & r1 & -> & M & d & xs & r2 & -> & Hd & _).
    exists c, d, (xs ++ r2); split; [reflexivity|]; split.
    + cbn [atom_match existsb] in M; unfold char_eqb in M.
      rewrite orb_false_r, orb_true_iff, !N.eqb_eq in M; exact M.
    + cbn [atom_match] in Hd; unfold char_eqb in Hd.
      rewrite negb_true_iff, N.eqb_neq in Hd; exact Hd.
  - intros (c & d & rest & -> & M & Hd).
    split; [reflexivity|]; exists c, (d :: rest); split; [reflexivity|]; split.
    + cbn [atom_match existsb]; unfold char_eqb.
      rewrite orb_false_r, orb_true_iff, !N.eqb_eq; exact M.
    + exists d, [], rest; split; [reflexivity|]; split; [|auto].
      cbn [atom_match]; unfold char_eqb.
      rewrite negb_true_iff, N.eqb_neq; exact Hd.
Qed.

(** [^×\s+×\s+×$] *)
Lemma bunritai_iff (l : str) : re_match bunritai l = true <-> separator_line l.
Proof.
  unfold re_match, separator_line; rewrite run_iff; unfold bunritai.
  cbn [accepts]; split.
  - intros (_ & c1 & r1 & -> & L1 & a & xs & r2 & -> & Ha & Wx
            & c2 & r3 & -> & L2 & b & ys & r4 & -> & Hb & Wy
            & c3 & r5 & -> & L3 & T & _).
    apply lit_iff in L1, L2, L3; subst c1 c2 c3.
    exists (a :: xs), (b :: ys), r5; cbn [app forallb].
    cbn [atom_match] in Ha, Hb; rewrite all_space_iff in Wx, Wy.
    rewrite Ha, Hb, Wx, Wy; repeat split; try discriminate; exact T.
  - intros (w1 & w2 & tail & -> & N1 & N2 & W1 & W2 & T).
    destruct w1 as [|a xs]; [congruence|].
    destruct w2 as [|b ys]; [congruence|].
    cbn [forallb] in W1, W2.
    apply andb_true_iff in W1 as [Ha Wx], W2 as [Hb Wy].
    split; [reflexivity|].
    eexists _, _; split; [reflexivity|]; split; [apply lit_iff; reflexivity|].
    exists a, xs, (MULTIPLICATION_SIGN :: (b :: ys) ++ MULTIPLICATION_SIGN :: tail).
    split; [reflexivity|]; split; [exact Ha|]; split; [exact Wx|].
    eexists _, _; split; [reflexivity|]; split; [apply lit_iff; reflexivity|].
    exists b, ys, (MULTIPLICATION_SIGN :: tail).
    split; [reflexivity|]; split; [exact Hb|]; split; [exact Wy|].
    eexists _, _; split; [reflexivity|]; split; [apply lit_iff; reflexivity|].
    auto.
Qed.

(** [^【.+】$] *)
Lemma midashi_iff (l : str) : re_match midashi l = true <-> bracketed_line l.
Proof.
  unfold re_match, bracketed_line; rewrite run_iff; unfold midashi.
  cbn [accepts]; split.
  - intros (_ & c1 & r1 & -> & L1 & a & xs & r2 & -> & Ha & Wx
            & c2 & r3 & -> & L2 & T & _).
    apply lit_iff in L1, L2; subst c1 c2.
    exists (a :: xs), r3; repeat split; try discriminate; [|exact T].
    apply (all_any_iff (a :: xs)); cbn [forallb]; rewrite Ha, Wx; reflexivity.
  - intros (inside & tail & -> & NE & W & T).
    destruct inside as [|a xs]; [congruence|].
    apply all_any_iff in W; cbn [forallb] in W.
    apply andb_true_iff in W as [Ha Wx].
    split; [reflexivity|].
    eexists _, _; split; [reflexivity|]; split; [apply lit_iff; reflexivity|].
    exists a, xs, (RIGHT_LENTICULAR :: tail).
    split; [reflexivity|]; split; [exact Ha|]; split; [exact Wx|].
    eexists _, _; split; [reflexivity|]; split; [apply lit_iff; reflexivity|].
    auto.
Qed.

(** Two readings of one string as "something, a closing character that is
    no line feed, and then the end or one last line feed" have the same
    closing character. *)
Lemma closing_char (p q : str) (a b : char) (t t' : str) :
  (t = [] \/ t = [LF]) -> (t' = [] \/ t' = [LF]) ->
  a <> LF -> b <> LF ->
  p ++ a :: t = q ++ b :: t' -> a = b.
Proof.
  intros T T' Na Nb E; apply (f_equal (@rev char)) in E.
  rewrite !rev_app_distr in E; cbn [rev] in E; rewrite <- !app_assoc in E.
  destruct T as [-> | ->], T' as [-> | ->]; cbn [rev app] in E;
    injection E; intros; congruence.
Qed.

(** The closing character of each pattern that is anchored at the end. *)
Lemma serifu_closing (l : str) :
  re_match serifu l = true ->
  exists p t, l = p ++ RIGHT_CORNER_BRACKET :: t /\ (t = [] \/ t = [LF]).
Proof.
  intros H; apply serifu_iff in H
    as (before & inside & tail & -> & _ & _ & _ & T).
  exists (before ++ LEFT_CORNER_BRACKET :: inside), tail; split; [|exact T].
  rewrite <- app_assoc; reflexivity.
Qed.

Lemma bunritai_closing (l : str) :
  re_match bunritai l = true ->
  exists p t, l = p ++ MULTIPLICATION_SIGN :: t /\ (t = [] \/ t = [LF]).
Proof.
  intros H; apply bunritai_iff in H
    as (w1 & w2 & tail & -> & _ & _ & _ & _ & T).
  exists (MULTIPLICATION_SIGN :: w1 ++ MULTIPLICATION_SIGN :: w2), tail.
  split; [|exact T].
  cbn [app]; rewrite <- app_assoc; reflexivity.
Qed.

Lemma midashi_closing (l : str) :
  re_match midashi l = true ->
  exists p t, l = p ++ RIGHT_LENTICULAR :: t /\ (t = [] \/ t = [LF]).
Proof.
  intros H; apply midashi_iff in H as (inside & tail & -> & _ & _ & T).
  exists (LEFT_LENTICULAR :: inside), tail; split; [reflexivity | exact T].
Qed.

Lemma not_true_false (b : bool) : (b = true -> False) -> b = false.
Proof. destruct b; [intros H; destruct H; reflexivity | reflexivity]. Qed.

Lemma bunritai_not_serifu (l : str) :
  re_match bunritai l = true -> re_match serifu l = false.
Proof.
  intros B; apply not_true_false; intros S.
  apply bunritai_closing in B as (p & t & -> & T).
  apply serifu_closing in S as (q & t' & E & T').
  apply closing_char in E; try assumption; discriminate.
Qed.

Lemma midashi_not_serifu (l : str) :
  re_match midashi l = true -> re_match serifu l = false.
Proof.
  intros B; apply not_true_false; intros S.
  apply midashi_closing in B as (p & t & -> & T).
  apply serifu_closing in S as (q & t' & E & T').
  apply closing_char in E; try assumption; discriminate.
Qed.

Lemma midashi_not_bunritai (l : str) :
  re_match midashi l = true -> re_match bunritai l = false.
Proof.
  intros B; apply not_true_false; intros S.
  apply midashi_iff in B as (inside & tail & -> & _).
  apply bunritai_iff in S as (w1 & w2 & t & E & _); discriminate E.
Qed.

Lemma bunritai_not_hashira (l : str) :
  re_match bunritai l = true -> re_match hashira l = false.
Proof.
  intros B; apply not_true_false; intros S.
  apply bunritai_iff in B as (w1 & w2 & t & -> & _).
  apply hashira_iff in S as (c & d & rest & E & [-> | ->] & _); discriminate E.
Qed.

Lemma midashi_not_hashira (l : str) :
  re_match midashi l = true -> re_match hashira l = false.
Proof.
  intros B; apply not_true_false; intros S.
  apply midashi_iff in B as (inside & tail & -> & _).
  apply hashira_iff in S as (c & d & rest & E & [-> | ->] & _); discriminate E.
Qed.

End PatternFacts.

Lemma tag_line_hashira (l : str) :
  snd (tag_line l) = HASHIRA <-> Re.re_match hashira l = true.
Proof.
  unfold tag_line.
  destruct (Re.re_match hashira l); [tauto|].
  destruct (Re.re_match serifu l); [split; discriminate|].
  destruct (Re.re_match bunritai l); [split; discriminate|].
  destruct (Re.re_match midashi l); [split; discriminate|].
  destruct (str_eqb l []); split; discriminate.
Qed.

Lemma tag_line_kaigyo (l : str) : snd (tag_line l) = KAIGYO <-> l = [].
Proof.
  split; [|intros ->; reflexivity].
  unfold tag_line.
  destruct (Re.re_match hashira l); [discriminate|].
  destruct (Re.re_match serifu l); [discriminate|].
  destruct (Re.re_match bunritai l); [discriminate|].
  destruct (Re.re_match midashi l); [discriminate|].
  destruct (str_eqb l []) eqn:E; [|discriminate].
  intros _; apply str_eqb_eq, E.
Qed.

Lemma tag_line_serifu (l : str) :
  snd (tag_line l) = SERIFU <->
  Re.re_match hashira l = false /\ Re.re_match serifu l = true.
Proof.
  unfold tag_line.
  destruct (Re.re_match hashira l); [split; [|intros [H _]]; discriminate|].
  destruct (Re.re_match serifu l); [tauto|].
  destruct (Re.re_match bunritai l); [split; [|intros [_ H]]; discriminate|].
  destruct (Re.re_match midashi l); [split; [|intros [_ H]]; discriminate|].
  destruct (str_eqb l []); split; try discriminate; intros [_ H]; discriminate.
Qed.

Lemma tag_line_bunritai (l : str) :
  snd (tag_line l) = BUNRITAI <-> Re.re_match bunritai l = true.
Proof.
  split.
  - unfold tag_line.
    destruct (Re.re_match hashira l); [discriminate|].
    destruct (Re.re_match serifu l); [discriminate|].
    destruct (Re.re_match bunritai l); [reflexivity|].
    destruct (Re.re_match midashi l); [discriminate|].
    destruct (str_eqb l []); discriminate.
  - intros B; unfold tag_line.
    rewrite (PatternFacts.bunritai_not_hashira _ B).
    rewrite (PatternFacts.bunritai_not_serifu _ B), B; reflexivity.
Qed.

Lemma tag_line_midashi (l : str) :
  snd (tag_line l) = MIDASHI <-> Re.re_match midashi l = true.
Proof.
  split.
  - unfold tag_line.
    destruct (Re.re_match hashira l); [discriminate|].
    destruct (Re.re_match serifu l); [discriminate|].
    destruct (Re.re_match bunritai l); [discriminate|].
    destruct (Re.re_match midashi l); [reflexivity|].
    destruct (str_eqb l []); discriminate.
  - intros B; unfold tag_line.
    rewrite (PatternFacts.midashi_not_hashira _ B).
    rewrite (PatternFacts.midashi_not_serifu _ B).
    rewrite (PatternFacts.midashi_not_bunritai _ B), B; reflexivity.
Qed.

(** A line is a Slugline exactly when it opens with [○] or [□] and the next
    character exists and is no line feed; what follows is free.  A marker
    alone on its line is no Slugline. *)
Theorem slugline_iff_marker (l : str) :
  (snd (tag_line l) = HASHIRA <-> marked_line l)
  /\ snd (tag_line [WHITE_CIRCLE]) = TOGAKI
  /\ snd (tag_line [WHITE_SQUARE]) = TOGAKI.
Proof.
  split; [|split; reflexivity].
  rewrite tag_line_hashira; apply PatternFacts.hashira_iff.
Qed.

(** A line is a Transition exactly when it is the separator glyph [×], a
    non-empty run of whitespace, [×], a non-empty run of whitespace and [×],
    and then ends (or ends after one last line feed).  Whitespace here is
    any Unicode whitespace, the fullwidth space included. *)
Theorem transition_iff_separator (l : str) :
  snd (tag_line l) = BUNRITAI <-> separator_line l.
Proof. rewrite tag_line_bunritai; apply PatternFacts.bunritai_iff. Qed.

(** A line is a Heading exactly when it is [【], at least one character, none
    of them a line feed, and [】], and then ends (or ends after one last line
    feed). *)
Theorem heading_iff_bracketed (l : str) :
  snd (tag_line l) = MIDASHI <-> bracketed_line l.
Proof. rewrite tag_line_midashi; apply PatternFacts.midashi_iff. Qed.

(** The tests overlap in one place only.  A line that passes the Transition
    test passes none of the Slugline, Dialogue and Heading tests; a line that
    passes the Heading test passes neither the Slugline nor the Dialogue
    test; and the empty line passes none of the four.  Slugline and Dialogue
    do overlap: [○「A」] passes both, and is a Slugline. *)
Theorem tests_overlap_only_for_slugline_and_dialogue (l : str) :
  (Re.re_match bunritai l = true ->
     Re.re_match hashira l = false /\ Re.re_match serifu l = false /\
     Re.re_match midashi l = false)
  /\ (Re.re_match midashi l = true ->
        Re.re_match hashira l = false /\ Re.re_match serifu l = false)
  /\ (l = [] ->
        Re.re_match hashira l = false /\ Re.re_match serifu l = false /\
        Re.re_match bunritai l = false /\ Re.re_match midashi l = false)
  /\ (Re.re_match hashira
        [WHITE_CIRCLE; LEFT_CORNER_BRACKET; 0x41%N; RIGHT_CORNER_BRACKET] = true
      /\ Re.re_match serifu
           [WHITE_CIRCLE; LEFT_CORNER_BRACKET; 0x41%N; RIGHT_CORNER_BRACKET]
         = true).
Proof.
  split; [|split; [|split]].
  - intros B; split; [|split].
    + apply PatternFacts.bunritai_not_hashira, B.
    + apply PatternFacts.bunritai_not_serifu, B.
    + destruct (Re.re_match midashi l) eqn:M; [|reflexivity].
      rewrite (PatternFacts.midashi_not_bunritai _ M) in B; discriminate.
  - intros M; split.
    + apply PatternFacts.midashi_not_hashira, M.
    + apply PatternFacts.midashi_not_serifu, M.
  - intros ->; repeat split.
  - split; reflexivity.
Qed.

(** Preprocessor and Classifier together: a raw line becomes a Blank entry
    exactly when it consists of whitespace only (the empty line included);
    such a line is the one kind the Classifier tags Blank. *)
Theorem blank_iff_whitespace_only (raw : str) :
  (snd (tag_line (strip raw)) = KAIGYO <-> forallb isspace raw = true)
  /\ (snd (tag_line raw) = KAIGYO <-> raw = []).
Proof.
  split; [|apply tag_line_kaigyo].
  rewrite tag_line_kaigyo; split; [|apply strip_all_space].
  intros E; destruct (strip_split raw) as (pre & suf & R & Wp & Ws).
  rewrite E in R; cbn [app] in R; rewrite R, forallb_app, Wp, Ws; reflexivity.
Qed.

(** * Further properties of the Break Normalizer *)

Lemma chain_tail {A : Type} (R : A -> A -> Prop) (a : A) (l : list A) :
  chain R (a :: l) -> chain R l.
Proof. destruct l; simpl; tauto. Qed.

Lemma chain_adjacent {A : Type} (R : A -> A -> Prop) (l : list A) :
  chain R l ->
  forall front a b back, l = front ++ a :: b :: back -> R a b.
Proof.
  intros C front; revert l C; induction front as [|c front IH];
    intros l C a b back ->.
  - exact (proj1 C).
  - apply (IH _ (chain_tail _ _ _ C) a b back eq_refl).
Qed.

Lemma needs_blank_true (prev cur : LineAttribute) :
  needs_blank prev cur = true -> prev <> KAIGYO /\ cur <> KAIGYO.
Proof. destruct prev, cur; intros H; cbv in H; split; congruence. Qed.

Lemma needs_blank_blank_l (c : LineAttribute) : needs_blank KAIGYO c = false.
Proof. destruct c; reflexivity. Qed.

Lemma needs_blank_blank_r (c : LineAttribute) : needs_blank c KAIGYO = false.
Proof. destruct c; reflexivity. Qed.

Lemma needs_blank_before_slugline (c : LineAttribute) :
  needs_blank c HASHIRA = false -> c = KAIGYO.
Proof. destruct c; intros H; cbv in H; congruence. Qed.

Lemma needs_blank_after_slugline (c : LineAttribute) :
  needs_blank HASHIRA c = false -> c = KAIGYO.
Proof. destruct c; intros H; cbv in H; congruence. Qed.

Section BreakNormalizerMore.

Variable entry : Type.
Variable attribute : entry -> LineAttribute.
Variable new_blank : entry.
Hypothesis new_blank_is_blank : attribute new_blank = KAIGYO.

(** After the loop no two neighbours of the output call for a blank, and
    neither do the starting context and the first entry. *)
Lemma appended_calm (l : list entry) : forall context,
  calm (context :: map attribute (appended attribute new_blank context l)).
Proof.
  unfold calm; induction l as [|x l IH]; intros context.
  - exact I.
  - rewrite appended_cons; unfold blank_before.
    destruct (needs_blank context (attribute x)) eqn:N.
    + cbn [app map chain]; rewrite new_blank_is_blank.
      split; [apply needs_blank_blank_r|].
      split; [apply needs_blank_blank_l | apply IH].
    + cbn [app map chain]; split; [exact N | apply IH].
Qed.

(** Where nothing calls for a blank the loop copies its input. *)
Lemma appended_fixed (l : list entry) : forall context,
  calm (context :: map attribute l) ->
  appended attribute new_blank context l = l.
Proof.
  unfold calm; induction l as [|x l IH]; intros context C.
  - reflexivity.
  - cbn [map chain] in C; destruct C as [N C].
    rewrite appended_cons; unfold blank_before; rewrite N, (IH _ C).
    reflexivity.
Qed.

Lemma appended_fixed_calm (l : list entry) : forall context,
  appended attribute new_blank context l = l ->
  calm (context :: map attribute l).
Proof.
  unfold calm; induction l as [|x l IH]; intros context E.
  - exact I.
  - rewrite appended_cons in E; unfold blank_before in E.
    destruct (needs_blank context (attribute x)) eqn:N; cbn [app] in E.
    + exfalso; apply (f_equal (@length entry)) in E; cbn [length] in E.
      pose proof (appended_length _ attribute new_blank (attribute x) l); lia.
    + injection E as E; cbn [map chain]; split; [exact N | apply IH, E].
Qed.

Lemma appended_length_upper (l : list entry) : forall context,
  length (appended attribute new_blank context l) <= 2 * length l.
Proof.
  induction l as [|x l IH]; intros context.
  - apply Nat.le_refl.
  - rewrite appended_cons, length_app; unfold blank_before.
    specialize (IH (attribute x)).
    destruct (needs_blank context (attribute x)); cbn [length]; lia.
Qed.

End BreakNormalizerMore.

Lemma fix_line_breaks_cons (x : lwa) (l : list lwa) :
  fix_line_breaks (x :: l)
  = Return ((if LineAttribute_eqb (snd x) HASHIRA then [blank_line] else [])
            ++ x :: appended snd blank_line (snd x) l).
Proof.
  unfold fix_line_breaks; rewrite fix_line_breaks_on_cons, appended_cons.
  unfold blank_before; rewrite needs_blank_same; reflexivity.
Qed.

(** The output is calm and does not begin with a Slugline. *)
Lemma fix_line_breaks_calm (l out : list lwa) :
  fix_line_breaks l = Return out ->
  calm (map snd out) /\
  exists o rest, out = o :: rest /\ snd o <> HASHIRA.
Proof.
  destruct l as [|x l]; [discriminate|].
  intros E; split.
  - unfold fix_line_breaks in E; rewrite fix_line_breaks_on_cons in E.
    injection E as <-.
    apply (chain_tail _ (snd x)), (appended_calm _ snd blank_line eq_refl).
  - rewrite fix_line_breaks_cons in E; injection E as <-.
    destruct (LineAttribute_eqb (snd x) HASHIRA) eqn:H; cbn [app].
    + eexists _, _; split; [reflexivity | discriminate].
    + eexists _, _; split; [reflexivity|].
      apply LineAttribute_eqb_neq, H.
Qed.

(** The output is at most twice as long as the input: each entry brings at
    most one new blank with it. *)
Theorem normalization_at_most_doubles (l : list lwa) :
  l <> [] ->
  exists out, fix_line_breaks l = Return out /\ length out <= 2 * length l.
Proof.
  destruct l as [|x l]; [congruence | intros _].
  unfold fix_line_breaks; rewrite fix_line_breaks_on_cons.
  eexists; split; [reflexivity | apply appended_length_upper].
Qed.

Lemma normalization_at_most_doubles_witness :
  sample_scene <> [] /\
  exists out,
    fix_line_breaks sample_scene = Return out
    /\ length out <= 2 * length sample_scene.
Proof.
  split; [discriminate|].
  apply (normalization_at_most_doubles sample_scene); discriminate.
Defined.

(** In the output every Slugline stands between blanks: the entry before it
    exists and is a Blank (so the output never begins with a Slugline), and
    the entry after it, if there is one, is a Blank. *)
Theorem sluglines_stand_between_blanks (l : list lwa) :
  l <> [] ->
  exists out,
    fix_line_breaks l = Return out /\
    forall front x back,
      out = front ++ x :: back -> snd x = HASHIRA ->
      (exists front' b, front = front' ++ [b] /\ snd b = KAIGYO) /\
      (back = [] \/ exists b back', back = b :: back' /\ snd b = KAIGYO).
Proof.
  intros NE; destruct (fix_line_breaks l) as [out|e] eqn:E;
    [|destruct l; [congruence | discriminate]].
  exists out; split; [reflexivity|].
  destruct (fix_line_breaks_calm _ _ E) as [C (o & rest & Eo & No)].
  intros front x back -> Hx; split.
  - destruct front as [|f front] using rev_ind.
    + injection Eo as -> _; contradiction.
    + clear IHfront; exists front, f; split; [reflexivity|].
      apply needs_blank_before_slugline; rewrite <- Hx.
      apply (chain_adjacent _ _ C (map snd front) (snd f) (snd x) (map snd back)).
      rewrite <- app_assoc, map_app; reflexivity.
  - destruct back as [|b back]; [left; reflexivity | right].
    exists b, back; split; [reflexivity|].
    apply needs_blank_after_slugline; rewrite <- Hx.
    apply (chain_adjacent _ _ C (map snd front) (snd x) (snd b) (map snd back)).
    rewrite map_app; reflexivity.
Qed.

Lemma sluglines_stand_between_blanks_witness :
  sample_headings <> [] /\
  exists out,
    fix_line_breaks sample_headings = Return out /\
    forall front x back,
      out = front ++ x :: back -> snd x = HASHIRA ->
      (exists front' b, front = front' ++ [b] /\ snd b = KAIGYO) /\
      (back = [] \/ exists b back', back = b :: back' /\ snd b = KAIGYO).
Proof.
  split; [discriminate|].
  apply (sluglines_stand_between_blanks sample_headings); discriminate.
Defined.

Lemma fix_line_breaks_fixed_iff (l : list lwa) :
  fix_line_breaks l = Return l <->
  (exists x l', l = x :: l' /\ snd x <> HASHIRA) /\ calm (map snd l).
Proof.
  destruct l as [|x l].
  - split; [discriminate | intros [(x & l' & E & _) _]; discriminate].
  - unfold fix_line_breaks; rewrite fix_line_breaks_on_cons; split.
    + intros E; injection E as E.
      apply appended_fixed_calm in E; unfold calm in *.
      cbn [map chain] in *; destruct E as [N C].
      split; [|exact C]; exists x, l; split; [reflexivity|].
      rewrite needs_blank_same in N; apply LineAttribute_eqb_neq, N.
    + intros [(x' & l' & E & N) C]; injection E as <- <-.
      f_equal; apply appended_fixed; unfold calm in *.
      cbn [map chain] in *; split; [|exact C].
      rewrite needs_blank_same; apply LineAttribute_eqb_neq, N.
Qed.

(** The Break Normalizer returns its input as it is exactly when the input
    is not empty, does not begin with a Slugline, and has no two neighbours
    that call for a blank (two Sluglines, or two different categories
    neither of which is Blank). *)
Theorem normalization_fixed_points (l : list lwa) :
  fix_line_breaks l = Return l <->
  (exists x l', l = x :: l' /\ snd x <> HASHIRA) /\
  (forall front a b back,
      l = front ++ a :: b :: back -> needs_blank (snd a) (snd b) = false).
Proof.
  rewrite fix_line_breaks_fixed_iff; split; intros [H C]; (split; [exact H|]).
  - intros front a b back ->.
    apply (chain_adjacent _ _ C (map snd front) (snd a) (snd b) (map snd back)).
    rewrite map_app; reflexivity.
  - clear H; unfold calm; induction l as [|a [|b l] IH]; cbn [map chain]; auto.
    split; [apply (C [] a b l eq_refl)|].
    apply IH; intros front a' b' back E.
    apply (C (a :: front) a' b' back); rewrite E; reflexivity.
Qed.

(** Normalizing twice is normalizing once: the Break Normalizer returns its
    own output unchanged. *)
Theorem normalization_idempotent (l : list lwa) :
  l <> [] ->
  exists out,
    fix_line_breaks l = Return out /\ fix_line_breaks out = Return out.
Proof.
  intros NE; destruct (fix_line_breaks l) as [out|e] eqn:E;
    [|destruct l; [congruence | discriminate]].
  exists out; split; [reflexivity|].
  apply fix_line_breaks_fixed_iff.
  destruct (fix_line_breaks_calm _ _ E) as [C H]; split; assumption.
Qed.

Lemma normalization_idempotent_witness :
  sample_scene <> [] /\
  exists out,
    fix_line_breaks sample_scene = Return out
    /\ fix_line_breaks out = Return out.
Proof.
  split; [discriminate|].
  apply (normalization_idempotent sample_scene); discriminate.
Defined.

(** *** Where the new blanks stand *)

(** The same with the starting context seen as an original entry in
    front. *)
Lemma appended_marked_no_blank_beside_new (l : list lwa) : forall e : marked,
  is_original e = true ->
  no_blank_beside_new
    (e :: appended_marked (snd (snd e)) (map mark l)).
Proof.
  unfold no_blank_beside_new, appended_marked.
  induction l as [|x l IH]; intros e Oe.
  - exact I.
  - cbn [map]; rewrite appended_cons; unfold blank_before; cbn [mark snd].
    specialize (IH (mark x) eq_refl); cbn [mark snd] in IH.
    destruct (needs_blank (snd (snd e)) (snd x)) eqn:N; cbn [app chain].
    + apply needs_blank_true in N as [N1 N2].
      split; [split; [congruence | intros _; exact N1]|].
      split; [split; [intros _; exact N2 | discriminate]|].
      exact IH.
    + split; [split; [congruence | discriminate]|].
      exact IH.
Qed.

(** In the marked run, a new blank never stands beside a blank: not beside
    another new one, and not beside a Blank entry of the input. *)
Theorem no_blank_beside_inserted_blank (l : list lwa) :
  l <> [] ->
  exists out,
    fix_line_breaks_marked l = Return out /\
    forall front a b back,
      out = front ++ a :: b :: back ->
      (is_original a = false -> snd (snd b) <> KAIGYO) /\
      (is_original b = false -> snd (snd a) <> KAIGYO).
Proof.
  destruct l as [|x l]; [congruence | intros _].
  exists (appended_marked (snd x) (map mark (x :: l))).
  split; [reflexivity|].
  apply chain_adjacent, (chain_tail _ (mark x)).
  apply (appended_marked_no_blank_beside_new (x :: l) (mark x) eq_refl).
Qed.

Lemma no_blank_beside_inserted_blank_witness :
  sample_scene <> [] /\
  exists out,
    fix_line_breaks_marked sample_scene = Return out /\
    forall front a b back,
      out = front ++ a :: b :: back ->
      (is_original a = false -> snd (snd b) <> KAIGYO) /\
      (is_original b = false -> snd (snd a) <> KAIGYO).
Proof.
  split; [discriminate|].
  apply (no_blank_beside_inserted_blank sample_scene); discriminate.
Defined.

(** The output ends with the last entry of the input: no blank is put after
    it. *)
Theorem normalization_keeps_last_entry (l : list lwa) (x : lwa) :
  exists front,
    fix_line_breaks_marked (l ++ [x]) = Return (front ++ [mark x])
    /\ fix_line_breaks (l ++ [x]) = Return (map snd front ++ [x]).
Proof.
  assert (NE : exists y l', l ++ [x] = y :: l')
    by (destruct l as [|y l]; cbn [app]; eauto).
  destruct NE as (y & l' & E).
  set (c := context_after (fun m : marked => snd (snd m)) (snd y) (map mark l)).
  exists (appended_marked (snd y) (map mark l)
          ++ blank_before (fun m : marked => snd (snd m))
                          (Synthetic, blank_line) c (mark x)).
  assert (R : fix_line_breaks_marked (l ++ [x])
              = Return ((appended_marked (snd y) (map mark l)
                         ++ blank_before (fun m : marked => snd (snd m))
                              (Synthetic, blank_line) c (mark x))
                        ++ [mark x])).
  { unfold fix_line_breaks_marked.
    rewrite E at 1; cbn [map]; rewrite fix_line_breaks_on_cons.
    change (mark y :: map mark l') with (map mark (y :: l')).
    rewrite <- E, map_app; cbn [map mark snd].
    fold appended_marked; unfold appended_marked at 1.
    rewrite appended_app, appended_cons; fold appended_marked; fold c.
    rewrite <- app_assoc; reflexivity. }
  split; [exact R|].
  pose proof (fix_line_breaks_marked_erase (l ++ [x])) as M; rewrite R in M.
  rewrite M, map_app; reflexivity.
Qed.

(** The output for the beginning of a sequence is the beginning of the
    output for the whole sequence: what follows an entry has no influence on
    what is put before it. *)
Theorem normalization_of_prefix (l1 l2 : list lwa) :
  l1 <> [] ->
  exists out1 rest,
    fix_line_breaks l1 = Return out1
    /\ fix_line_breaks (l1 ++ l2) = Return (out1 ++ rest).
Proof.
  destruct l1 as [|x l1]; [congruence | intros _].
  cbn [app]; unfold fix_line_breaks; rewrite !fix_line_breaks_on_cons.
  change (x :: l1 ++ l2) with ((x :: l1) ++ l2); rewrite appended_app.
  eexists _, _; split; reflexivity.
Qed.

Lemma normalization_of_prefix_witness :
  sample_headings <> [] /\
  exists out1 rest,
    fix_line_breaks sample_headings = Return out1
    /\ fix_line_breaks (sample_headings ++ sample_scene)
       = Return (out1 ++ rest).
Proof.
  split; [discriminate|].
  apply (normalization_of_prefix sample_headings sample_scene); discriminate.
Defined.

(** * The pipeline as a whole *)

Lemma tag_line_stored_text (l : str) : fst (tag_line l) = stored_text l.
Proof.
  unfold tag_line, stored_text.
  destruct (Re.re_match bunritai l) eqn:B.
  - rewrite (PatternFacts.bunritai_not_hashira _ B).
    rewrite (PatternFacts.bunritai_not_serifu _ B); reflexivity.
  - destruct (Re.re_match hashira l); [reflexivity|].
    destruct (Re.re_match serifu l); [reflexivity|].
    destruct (Re.re_match midashi l); [reflexivity|].
    destruct (str_eqb l []); reflexivity.
Qed.

Lemma nonempty_stored_text (l : str) : nonempty (stored_text l) = nonempty l.
Proof.
  unfold stored_text; destruct (Re.re_match bunritai l) eqn:B; [|reflexivity].
  destruct l; [discriminate B | reflexivity].
Qed.

Lemma filter_nonempty_stored (ls : list str) :
  filter nonempty (map stored_text ls) = map stored_text (filter nonempty ls).
Proof.
  induction ls as [|l ls IH]; [reflexivity|].
  cbn [map filter]; rewrite nonempty_stored_text, IH.
  destruct (nonempty l); reflexivity.
Qed.

(** The new blanks carry no text. *)
Lemma appended_texts (l : list lwa) : forall context,
  filter nonempty (map fst (appended snd blank_line context l))
  = filter nonempty (map fst l).
Proof.
  induction l as [|x l IH]; intros context; [reflexivity|].
  rewrite appended_cons; unfold blank_before.
  destruct (needs_blank context (snd x)); cbn [app map filter fst blank_line];
    rewrite IH; reflexivity.
Qed.

(** From the lines of the file to the sequence handed to the renderer, no
    text is lost, invented or moved: for a file with at least one line, the
    non-empty texts of that sequence are, in order, the non-empty stripped
    lines, each as it is except that a Transition line comes with one
    fullwidth space in front. *)
Theorem pipeline_keeps_texts (lines : list str) :
  lines <> [] ->
  exists out,
    ktf (Some lines) = Return (Some out)
    /\ filter nonempty (map fst out)
       = map stored_text (filter nonempty (map strip lines)).
Proof.
  destruct lines as [|l lines]; [congruence | intros _].
  unfold ktf, text_preprocessor; rewrite add_attribute_to_line_map.
  cbn [map]; unfold fix_line_breaks; rewrite fix_line_breaks_on_cons.
  eexists; split; [reflexivity|].
  change (tag_line (strip l) :: map tag_line (map strip lines))
    with (map tag_line (map strip (l :: lines))).
  rewrite appended_texts, map_map.
  rewrite (map_ext _ _ tag_line_stored_text), <- filter_nonempty_stored.
  reflexivity.
Qed.

Lemma pipeline_keeps_texts_witness :
  [[SPACE; MULTIPLICATION_SIGN; IDEOGRAPHIC_SPACE; MULTIPLICATION_SIGN;
    IDEOGRAPHIC_SPACE; MULTIPLICATION_SIGN]; [TAB]; speaker_line] <> [] /\
  exists out,
    ktf (Some [[SPACE; MULTIPLICATION_SIGN; IDEOGRAPHIC_SPACE;
                MULTIPLICATION_SIGN; IDEOGRAPHIC_SPACE; MULTIPLICATION_SIGN];
               [TAB]; speaker_line])
    = Return (Some out)
    /\ filter nonempty (map fst out)
       = map stored_text
           (filter nonempty
              (map strip
                 [[SPACE; MULTIPLICATION_SIGN; IDEOGRAPHIC_SPACE;
                   MULTIPLICATION_SIGN; IDEOGRAPHIC_SPACE; MULTIPLICATION_SIGN];
                  [TAB]; speaker_line])).
Proof.
  split; [discriminate|].
  apply (pipeline_keeps_texts
           [[SPACE; MULTIPLICATION_SIGN; IDEOGRAPHIC_SPACE; MULTIPLICATION_SIGN;
             IDEOGRAPHIC_SPACE; MULTIPLICATION_SIGN]; [TAB]; speaker_line]).
  discriminate.
Defined.

(** * Loading the file *)

Module PathFacts.

Lemma rindex_ge (P : char -> bool) (p : str) : (-1 <= rindex P p)%Z.
Proof.
  induction p as [|x p IH]; cbn [rindex]; [lia|].
  destruct (0 <=? rindex P p)%Z eqn:E; [lia|].
  destruct (P x); lia.
Qed.

Lemma rindex_none (P : char -> bool) (p : str) :
  forallb (fun x => negb (P x)) p = true -> rindex P p = (-1)%Z.
Proof.
  induction p as [|x p IH]; cbn [rindex forallb]; [reflexivity|].
  intros H; apply andb_true_iff in H as [Hx Hp].
  rewrite (IH Hp); apply negb_true_iff in Hx; rewrite Hx; reflexivity.
Qed.

Lemma rindex_intro (P : char -> bool) (a : str) (c : char) (b : str) :
  P c = true -> forallb (fun x => negb (P x)) b = true ->
  rindex P (a ++ c :: b) = Z.of_nat (length a).
Proof.
  intros Hc Hb; induction a as [|x a IH]; cbn [app rindex length].
  - rewrite (rindex_none _ _ Hb), Hc; reflexivity.
  - rewrite IH.
    destruct (0 <=? Z.of_nat (length a))%Z eqn:E; [lia|].
    apply Z.leb_gt in E; lia.
Qed.

Lemma rindex_spec (P : char -> bool) (p : str) :
  (rindex P p = (-1)%Z /\ forallb (fun x => negb (P x)) p = true)
  \/ exists a c b,
       p = a ++ c :: b /\ P c = true /\
       forallb (fun x => negb (P x)) b = true /\
       rindex P p = Z.of_nat (length a).
Proof.
  induction p as [|x p IH]; [left; split; reflexivity|].
  destruct IH as [[R N] | (a & c & b & -> & Hc & Hb & R)].
  - destruct (P x) eqn:Hx.
    + right; exists [], x, p; repeat split; auto.
      cbn [rindex]; rewrite R, Hx; reflexivity.
    + left; cbn [rindex forallb]; rewrite R, Hx, N; split; reflexivity.
  - right; exists (x :: a), c, b; repeat split; auto.
    apply (rindex_intro P (x :: a) c b Hc Hb).
Qed.

Lemma rindex_ext (P Q : char -> bool) (p : str) :
  (forall x, P x = Q x) -> rindex P p = rindex Q p.
Proof.
  intros E; induction p as [|x p IH]; cbn [rindex]; [reflexivity|].
  rewrite IH, E; reflexivity.
Qed.

Lemma rindex_max (P Q : char -> bool) (p : str) :
  Z.max (rindex P p) (rindex Q p) = rindex (fun x => P x || Q x) p.
Proof.
  induction p as [|x p IH]; cbn [rindex]; [reflexivity|].
  rewrite <- IH.
  pose proof (rindex_ge P p); pose proof (rindex_ge Q p).
  destruct (0 <=? rindex P p)%Z eqn:EP, (0 <=? rindex Q p)%Z eqn:EQ;
    destruct (0 <=? Z.max (rindex P p) (rindex Q p))%Z eqn:EM;
    try apply Z.leb_le in EP; try apply Z.leb_le in EQ;
    try apply Z.leb_le in EM; try apply Z.leb_gt in EP;
    try apply Z.leb_gt in EQ; try apply Z.leb_gt in EM;
    destruct (P x), (Q x); cbn [orb]; lia.
Qed.

(** The index [_splitext] computes from [sep] and [altsep] is that of the
    last separator. *)
Lemma sepIndex_eq (os : os_name) (p : str) :
  match altsep os with
  | Some a => Z.max (rfind (sep os) p) (rfind a p)
  | None => rfind (sep os) p
  end = rindex (is_sep os) p.
Proof.
  unfold rfind, is_sep; destruct os; cbn [altsep sep].
  - apply rindex_ext; intros x; rewrite orb_false_r; reflexivity.
  - apply rindex_max.
Qed.

Lemma skipn_length_app {A : Type} (a b : list A) : skipn (length a) (a ++ b) = b.
Proof. induction a; simpl; auto. Qed.

Lemma firstn_length_app {A : Type} (a b : list A) :
  firstn (length a) (a ++ b) = a.
Proof. induction a; simpl; [destruct b|]; congruence. Qed.

Lemma slice_middle (a m b : str) :
  slice (a ++ m ++ b) (Z.of_nat (length a)) (Z.of_nat (length a + length m)) = m.
Proof.
  unfold slice; rewrite Nat2Z.id, skipn_length_app.
  replace (Z.to_nat (Z.of_nat (length a + length m) - Z.of_nat (length a)))
    with (length m) by lia.
  apply firstn_length_app.
Qed.

Lemma dot_txt_no_sep (os : os_name) :
  forallb (fun x => negb (is_sep os x)) Literal.dot_txt = true.
Proof. destruct os; reflexivity. Qed.

(** The extension is [.txt] exactly for the paths described by
    [txt_path]. *)
Lemma splitext_txt_iff (os : os_name) (p : str) :
  snd (splitext os p) = Literal.dot_txt <-> txt_path os p.
Proof.
  unfold splitext; rewrite sepIndex_eq; fold (rfind DOT p); unfold rfind.
  set (isdot := fun x : char => char_eqb x DOT).
  split.
  - destruct ((rindex (is_sep os) p <? rindex isdot p)%Z
              && existsb (fun x => negb (char_eqb x DOT))
                   (slice p (rindex (is_sep os) p + 1) (rindex isdot p)))
      eqn:C; cbn [snd]; [|discriminate].
    apply andb_true_iff in C as [Lt Ex]; apply Z.ltb_lt in Lt.
    intros Ext.
    pose proof (rindex_ge (is_sep os) p) as Ge.
    destruct (rindex_spec isdot p) as [[R _] | (a & c & b & Ep & Hc & _ & R)];
      [lia|].
    rewrite R in *; rewrite Nat2Z.id in Ext.
    rewrite Ep, skipn_length_app in Ext.
    assert (Et : c :: b = Literal.dot_txt) by exact Ext.
    rewrite Et in Ep; clear Ext Et Hc c b.
    destruct (rindex_spec (is_sep os) p)
      as [[S N] | (a' & c' & b' & Ep' & Hc' & Nb & S)]; rewrite S in *.
    + exists [], a; cbn [app]; split; [exact Ep|]; split; [left; reflexivity|].
      rewrite Ep, forallb_app in N; apply andb_true_iff in N as [Na _].
      split; [exact Na|].
      rewrite Ep in Ex.
      change (-1 + 1)%Z with (Z.of_nat (@length char [])) in Ex.
      change a with ([] ++ a) in Ex at 1.
      rewrite <- app_assoc in Ex.
      change (Z.of_nat (length a))
        with (Z.of_nat (@length char [] + length a)) in Ex.
      rewrite slice_middle in Ex; exact Ex.
    + rewrite Ep in Ep'.
      destruct (app_eq_app _ _ _ _ Ep') as [l [[E1 E2] | [E1 E2]]].
      * destruct l as [|x l].
        -- rewrite app_nil_r in E1; subst a'; lia.
        -- injection E2 as <- E2.
           exists (a' ++ [c']), l; split; [|split; [|split]].
           ++ rewrite Ep, E1, <- !app_assoc; reflexivity.
           ++ right; exists a', c'; auto.
           ++ rewrite E2, forallb_app in Nb.
              apply andb_true_iff in Nb as [Nl _]; exact Nl.
           ++ rewrite Ep, E1 in Ex.
              replace ((a' ++ c' :: l) ++ Literal.dot_txt)
                with ((a' ++ [c']) ++ l ++ Literal.dot_txt) in Ex
                by (rewrite <- !app_assoc; reflexivity).
              replace (Z.of_nat (length a') + 1)%Z
                with (Z.of_nat (length (a' ++ [c']))) in Ex
                by (rewrite length_app; cbn [length]; lia).
              replace (Z.of_nat (length (a' ++ c' :: l)))
                with (Z.of_nat (length (a' ++ [c']) + length l)) in Ex
                by (rewrite !length_app; cbn [length]; lia).
              rewrite slice_middle in Ex; exact Ex.
      * exfalso; rewrite E1, length_app in Lt; lia.
  - intros (dir & name & -> & D & Nn & Ex).
    assert (Rd : rindex isdot (dir ++ name ++ Literal.dot_txt)
                 = Z.of_nat (length dir + length name)).
    { rewrite app_assoc, <- length_app.
      apply (rindex_intro isdot (dir ++ name) DOT); reflexivity. }
    assert (Rs : (rindex (is_sep os) (dir ++ name ++ Literal.dot_txt) + 1)%Z
                 = Z.of_nat (length dir)).
    { destruct D as [-> | (dir' & c & -> & Hc)].
      - cbn [app length]; rewrite rindex_none; [reflexivity|].
        rewrite forallb_app, Nn; apply dot_txt_no_sep.
      - rewrite <- app_assoc; cbn [app].
        rewrite rindex_intro; [rewrite length_app; cbn [length]; lia | exact Hc |].
        rewrite forallb_app, Nn; apply dot_txt_no_sep. }
    rewrite Rs, Rd, slice_middle, Ex.
    replace (rindex (is_sep os) (dir ++ name ++ Literal.dot_txt)
             <? Z.of_nat (length dir + length name))%Z with true
      by (symmetry; apply Z.ltb_lt; lia).
    cbn [andb snd]; rewrite Nat2Z.id, app_assoc, <- length_app.
    apply skipn_length_app.
Qed.

End PathFacts.

Module SplitFacts.

Lemma splitlines_from_no_linebreak (n : nat) : forall s line,
  length s <= n -> no_linebreak line ->
  Forall no_linebreak (splitlines_from line s).
Proof.
  unfold no_linebreak; induction n as [|n IH]; intros s line Ls Hl.
  - destruct s; [|cbn [length] in Ls; lia].
    cbn [splitlines_from]; destruct line; auto.
  - destruct s as [|c s]; [cbn [splitlines_from]; destruct line; auto|].
    cbn [length] in Ls; cbn [splitlines_from].
    destruct (is_linebreak c) eqn:B.
    + constructor; [exact Hl|].
      destruct (char_eqb c CR); [|apply IH; [lia | reflexivity]].
      destruct s as [|d s]; [apply IH; [lia | reflexivity]|].
      cbn [length] in Ls.
      destruct (char_eqb d LF); apply IH; cbn [length]; try lia; reflexivity.
    + apply IH; [lia|].
      rewrite forallb_app, Hl; cbn [forallb]; rewrite B; reflexivity.
Qed.

Lemma splitlines_no_linebreak (s : str) : Forall no_linebreak (splitlines s).
Proof.
  apply (splitlines_from_no_linebreak (length s)); [lia | reflexivity].
Qed.

Lemma splitlines_from_nil (s : str) : forall line,
  splitlines_from line s = [] <-> line = [] /\ s = [].
Proof.
  induction s as [|c s IH]; intros line; cbn [splitlines_from].
  - destruct line; split; try tauto; try discriminate.
    intros [E _]; discriminate.
  - destruct (is_linebreak c).
    + split; [discriminate | intros [_ E]; discriminate].
    + rewrite IH; split; [intros [E _] | intros [_ E]; discriminate].
      destruct line; discriminate.
Qed.

Lemma splitlines_nil (s : str) : splitlines s = [] <-> s = [].
Proof. unfold splitlines; rewrite splitlines_from_nil; tauto. Qed.

End SplitFacts.

Lemma load_text_file_some (os : os_name) (fs : file_system) (path : str)
    (console : list str) (lines : list str) :
  load_text_file os fs path = (console, inl (Some lines)) <->
  isfile fs path = true /\ txt_path os path /\
  exists text,
    read_text fs path = inl text /\ lines = splitlines text /\
    console = [message Literal.has_been_read SUCCESS].
Proof.
  unfold load_text_file; rewrite <- PathFacts.splitext_txt_iff, <- str_eqb_eq.
  destruct (isfile fs path); cbn [negb].
  - destruct (str_eqb (snd (splitext os path)) Literal.dot_txt); cbn [negb].
    + destruct (read_text fs path) as [text|e].
      * split.
        -- intros E; injection E as <- <-; repeat split; eauto.
        -- intros (_ & _ & text' & E & -> & ->); injection E as <-; reflexivity.
      * split; [discriminate | intros (_ & _ & text' & E & _); discriminate].
    + split; [discriminate | intros (_ & E & _); discriminate].
  - split; [discriminate | intros (E & _); discriminate].
Qed.

(** [load_text_file] returns lines exactly for a path that is an existing
    file, whose last component is a name with some character other than a
    dot followed by [.txt] (in lower case, and not a name of dots only), and
    whose text can be read; the lines are then those of the text and one
    success line is printed. *)
Theorem load_text_file_accepts (os : os_name) (fs : file_system) (path : str)
    (console : list str) (lines : list str) :
  load_text_file os fs path = (console, inl (Some lines)) <->
  isfile fs path = true /\ txt_path os path /\
  exists text,
    read_text fs path = inl text /\ lines = splitlines text /\
    console = [message Literal.has_been_read SUCCESS].
Proof. apply load_text_file_some. Qed.

(** The lines [load_text_file] returns hold no line boundary, in particular
    no line feed. *)
Theorem loaded_lines_hold_no_linebreak (os : os_name) (fs : file_system)
    (path : str) (console : list str) (lines : list str) :
  load_text_file os fs path = (console, inl (Some lines)) ->
  Forall (fun l => no_linebreak l /\ ~ In LF l) lines.
Proof.
  intros E; apply load_text_file_some in E as (_ & _ & text & _ & -> & _).
  eapply Forall_impl; [|apply SplitFacts.splitlines_no_linebreak].
  intros l N; split; [exact N|].
  unfold no_linebreak in N; rewrite forallb_forall in N.
  intros I; specialize (N LF I); discriminate.
Qed.

Lemma loaded_lines_hold_no_linebreak_witness :
  load_text_file posix
    {| isfile := fun _ => true; read_text := fun _ => inl sample_text |}
    script_txt
  = ([message Literal.has_been_read SUCCESS],
     inl (Some [speaker_line; [SPACE; LEFT_LENTICULAR; 0x43%N; RIGHT_LENTICULAR]]))
  /\ Forall (fun l => no_linebreak l /\ ~ In LF l)
            [speaker_line; [SPACE; LEFT_LENTICULAR; 0x43%N; RIGHT_LENTICULAR]].
Proof.
  split; [reflexivity|].
  apply (loaded_lines_hold_no_linebreak posix
           {| isfile := fun _ => true; read_text := fun _ => inl sample_text |}
           script_txt [message Literal.has_been_read SUCCESS]).
  reflexivity.
Defined.

(** The tool fails with [IndexError] on exactly one kind of input: an
    existing [.txt] file whose text is empty.  Every other path either is
    turned down by [load_text_file], cannot be read, or gives at least one
    line. *)
Theorem pipeline_fails_on_empty_file_only (os : os_name) (fs : file_system)
    (path : str) (console : list str) (loaded : option (list str)) :
  load_text_file os fs path = (console, inl loaded) ->
  (ktf loaded = Raise IndexError <->
   isfile fs path = true /\ txt_path os path /\ read_text fs path = inl []).
Proof.
  intros E; destruct loaded as [lines|].
  - apply load_text_file_some in E as (F & T & text & R & -> & _).
    rewrite R; split.
    + intros K; repeat split; try assumption.
      destruct (splitlines text) as [|l ls] eqn:S.
      * apply SplitFacts.splitlines_nil in S; rewrite S; reflexivity.
      * exfalso; unfold ktf, text_preprocessor in K.
        rewrite add_attribute_to_line_map in K; cbn [map] in K.
        unfold fix_line_breaks in K; rewrite fix_line_breaks_on_cons in K.
        discriminate.
    + intros (_ & _ & I); injection I as ->; reflexivity.
  - split; [discriminate|].
    intros (F & T & R).
    assert (L : load_text_file os fs path
                = ([message Literal.has_been_read SUCCESS],
                   inl (Some (splitlines []))))
      by (apply load_text_file_some; repeat split; eauto).
    rewrite L in E; discriminate.
Qed.

Lemma pipeline_fails_on_empty_file_only_witness :
  load_text_file posix empty_files script_txt
  = ([message Literal.has_been_read SUCCESS], inl (Some []))
  /\ (ktf (Some []) = Raise IndexError <->
      isfile empty_files script_txt = true /\ txt_path posix script_txt /\
      read_text empty_files script_txt = inl []).
Proof.
  split; [reflexivity|].
  apply (pipeline_fails_on_empty_file_only posix empty_files script_txt
           [message Literal.has_been_read SUCCESS]).
  reflexivity.
Defined.

Lemma strip_keeps_out (c : char) (l : str) : ~ In c l -> ~ In c (strip l).
Proof.
  intros N I; apply N.
  destruct (strip_split l) as (pre & suf & E & _); rewrite E.
  apply in_or_app; right; apply in_or_app; left; exact I.
Qed.

(** The categories on one line without line feed. *)
Lemma categories_without_line_feed (t : str) :
  ~ In LF t ->
  (snd (tag_line t) = HASHIRA <->
     exists c rest,
       t = c :: rest /\ (c = WHITE_CIRCLE \/ c = WHITE_SQUARE) /\ rest <> [])
  /\ (snd (tag_line t) = SERIFU <->
        snd (tag_line t) <> HASHIRA /\
        exists before inside,
          t = before ++ LEFT_CORNER_BRACKET :: inside ++ [RIGHT_CORNER_BRACKET]
          /\ inside <> [])
  /\ (snd (tag_line t) = BUNRITAI <->
        exists w1 w2,
          t = MULTIPLICATION_SIGN :: w1 ++ MULTIPLICATION_SIGN :: w2
                ++ [MULTIPLICATION_SIGN]
          /\ w1 <> [] /\ w2 <> []
          /\ forallb isspace w1 = true /\ forallb isspace w2 = true)
  /\ (snd (tag_line t) = MIDASHI <->
        exists inside,
          t = LEFT_LENTICULAR :: inside ++ [RIGHT_LENTICULAR] /\ inside <> []).
Proof.
  intros N.
  assert (Tail : forall p tail, t = p ++ tail -> tail = [] \/ tail = [LF] ->
                                tail = []).
  { intros p tail E [T|T]; [exact T|].
    exfalso; apply N; rewrite E, T; apply in_or_app; right; left; reflexivity. }
  split; [|split; [|split]].
  - rewrite tag_line_hashira, PatternFacts.hashira_iff; split.
    + intros (c & d & rest & E & M & _); exists c, (d :: rest).
      repeat split; auto; discriminate.
    + intros (c & [|d rest] & E & M & NE); [congruence|].
      exists c, d, rest; repeat split; auto.
      intros ->; apply N; rewrite E; right; left; reflexivity.
  - rewrite tag_line_serifu, ReFacts.serifu_iff.
    assert (H : snd (tag_line t) <> HASHIRA <-> Re.re_match hashira t = false).
    { rewrite tag_line_hashira; destruct (Re.re_match hashira t);
        split; congruence. }
    rewrite H; split; intros [Hh Q]; (split; [exact Hh|]).
    + destruct Q as (before & inside & tail & E & NE & _ & _ & T).
      assert (T0 : tail = []).
      { apply (Tail (before ++ LEFT_CORNER_BRACKET :: inside
                       ++ [RIGHT_CORNER_BRACKET])); [|exact T].
        rewrite E, <- app_assoc; cbn [app]; rewrite <- app_assoc; reflexivity. }
      subst tail; exists before, inside; auto.
    + destruct Q as (before & inside & E & NE).
      exists before, inside, []; repeat split; auto.
      * intros I; apply N; rewrite E; apply in_or_app; left; exact I.
      * intros I; apply N; rewrite E; apply in_or_app; right; right.
        apply in_or_app; left; exact I.
  - rewrite tag_line_bunritai, PatternFacts.bunritai_iff; split.
    + intros (w1 & w2 & tail & E & N1 & N2 & W1 & W2 & T).
      assert (T0 : tail = []).
      { apply (Tail (MULTIPLICATION_SIGN :: w1 ++ MULTIPLICATION_SIGN :: w2
                       ++ [MULTIPLICATION_SIGN])); [|exact T].
        rewrite E; cbn [app]; rewrite <- app_assoc; cbn [app].
        rewrite <- app_assoc; reflexivity. }
      subst tail; exists w1, w2; auto.
    + intros (w1 & w2 & E & N1 & N2 & W1 & W2).
      exists w1, w2, []; repeat split; auto.
  - rewrite tag_line_midashi, PatternFacts.midashi_iff; split.
    + intros (inside & tail & E & NE & _ & T).
      assert (T0 : tail = []).
      { apply (Tail (LEFT_LENTICULAR :: inside ++ [RIGHT_LENTICULAR]));
          [|exact T].
        rewrite E; cbn [app]; rewrite <- app_assoc; reflexivity. }
      subst tail; exists inside; auto.
    + intros (inside & E & NE); exists inside, []; repeat split; auto.
      intros I; apply N; rewrite E; right; apply in_or_app; left; exact I.
Qed.

(** How the tool classifies a line of a text it has read.  With [t] the line
    stripped: [t] is a Slugline when it opens with [○] or [□] and has more
    characters; a Dialogue when it is no Slugline and ends with [「], at
    least one character and [」]; a Transition when it is [×], whitespace,
    [×], whitespace, [×]; a Heading when it is [【], at least one character
    and [】].  No line feed comes into play: the text was cut at the line
    boundaries. *)
Theorem categories_of_loaded_lines (text l : str) :
  In l (splitlines text) ->
  (snd (tag_line (strip l)) = HASHIRA <->
     exists c rest,
       strip l = c :: rest /\ (c = WHITE_CIRCLE \/ c = WHITE_SQUARE) /\
       rest <> [])
  /\ (snd (tag_line (strip l)) = SERIFU <->
        snd (tag_line (strip l)) <> HASHIRA /\
        exists before inside,
          strip l = before ++ LEFT_CORNER_BRACKET :: inside
                      ++ [RIGHT_CORNER_BRACKET]
          /\ inside <> [])
  /\ (snd (tag_line (strip l)) = BUNRITAI <->
        exists w1 w2,
          strip l = MULTIPLICATION_SIGN :: w1 ++ MULTIPLICATION_SIGN :: w2
                      ++ [MULTIPLICATION_SIGN]
          /\ w1 <> [] /\ w2 <> []
          /\ forallb isspace w1 = true /\ forallb isspace w2 = true)
  /\ (snd (tag_line (strip l)) = MIDASHI <->
        exists inside,
          strip l = LEFT_LENTICULAR :: inside ++ [RIGHT_LENTICULAR]
          /\ inside <> []).
Proof.
  intros I; apply categories_without_line_feed, strip_keeps_out.
  pose proof (SplitFacts.splitlines_no_linebreak text) as F.
  rewrite Forall_forall in F; specialize (F l I).
  unfold no_linebreak in F; rewrite forallb_forall in F.
  intros L; specialize (F LF L); discriminate.
Qed.

Lemma categories_of_loaded_lines_witness :
  In speaker_line (splitlines sample_text) /\
  ((snd (tag_line (strip speaker_line)) = HASHIRA <->
      exists c rest,
        strip speaker_line = c :: rest /\
        (c = WHITE_CIRCLE \/ c = WHITE_SQUARE) /\ rest <> [])
   /\ (snd (tag_line (strip speaker_line)) = SERIFU <->
         snd (tag_line (strip speaker_line)) <> HASHIRA /\
         exists before inside,
           strip speaker_line = before ++ LEFT_CORNER_BRACKET :: inside
                                  ++ [RIGHT_CORNER_BRACKET]
           /\ inside <> [])
   /\ (snd (tag_line (strip speaker_line)) = BUNRITAI <->
         exists w1 w2,
           strip speaker_line
           = MULTIPLICATION_SIGN :: w1 ++ MULTIPLICATION_SIGN :: w2
               ++ [MULTIPLICATION_SIGN]
           /\ w1 <> [] /\ w2 <> []
           /\ forallb isspace w1 = true /\ forallb isspace w2 = true)
   /\ (snd (tag_line (strip speaker_line)) = MIDASHI <->
         exists inside,
           strip speaker_line = LEFT_LENTICULAR :: inside ++ [RIGHT_LENTICULAR]
           /\ inside <> [])).
Proof.
  split; [left; reflexivity|].
  apply (categories_of_loaded_lines sample_text speaker_line).
  left; reflexivity.
Defined.

(** * The enumerations *)

(** No member of [LineAttribute], [Decoration] or [Status] is an alias of
    another: two members with the same value are the same member.  So the
    six categories are six different values, and comparing categories with
    [==] tells them all apart. *)
Theorem enumerations_have_no_aliases :
  (forall a b : LineAttribute,
      LineAttribute_value a = LineAttribute_value b <-> a = b)
  /\ (forall a b : Decoration,
         Decoration_value a = Decoration_value b <-> a = b)
  /\ (forall a b : Status, Status_value a = Status_value b <-> a = b).
Proof.
  split; [|split]; intros a b; (split; [|intros ->; reflexivity]);
    destruct a, b; intros H; try reflexivity;
    vm_compute in H; discriminate H.
Qed.
